(** * complyctl: assessment scope resolution and plan filtering

    A shallow embedding of [internal/complytime/plan/scope.go] (package
    [plan]): the construction of an [AssessmentScope] from OSCAL component
    definitions and its application to an OSCAL assessment plan.

    Conventions of the embedding.
    - A Go slice [[]T] whose nil-ness the code tests or assigns, and a
      pointer to a slice [*[]T], are values of [option (list T)]: [None] is
      [nil].  A pointer to a struct [*T] is an [option T].
    - The plan is a tree: no two nodes share a backing array or a pointee.
      In-place mutation through a pointer becomes a returned, updated value.
    - [includeControlsSet] (a Go [map[string]struct{}]) is a [gset string].
      A [range] statement over a Go map yields the keys in an order that the
      language leaves unspecified and that may change from one statement to
      the next; every executed [range] over a map therefore draws its order
      from an oracle, indexed by a counter of the map iterations so far.
    - A nil-pointer dereference is the failure of the computation ([None]).
    - The logger only receives a debug line; it is left out, and so is the
      first loop of [applyControlScope], which reads the property names of
      the root selections and discards them.
    - The OSCAL types come from go-oscal; the records keep the fields the
      package reads or writes and a few it carries along.  A field [F] of a
      struct [T] is named with a prefix for [T] ([ac_Props], [act_Props],
      [step_Props]) where the name [F] occurs in several structs. *)

From Stdlib Require Import String Ascii.
From stdpp Require Import gmap strings list fin_maps sorting.

Local Open Scope string_scope.
Local Open Scope list_scope.

(** * Part I: the program *)

(** ** Go slices *)

Definition slice (A : Type) : Type := option (list A).

(** The elements a [range] over the slice visits. *)
Definition elems {A} (s : slice A) : list A := default [] s.

(** [append(s, x)]: appending to a nil slice allocates. *)
Definition append {A} (s : slice A) (x : A) : slice A := Some (elems s ++ [x]).

(** ** The OSCAL assessment plan *)

Record Property := mkProperty {
  Name : string;
  Value : string;
  Ns : string
}.

Record AssessedControlsSelectControlById := mkSelectControlById {
  ControlId : string;
  StatementIds : option (list string)
}.

Record AssessedControls := mkAssessedControls {
  ac_Description : string;
  ac_ExcludeControls : option (list AssessedControlsSelectControlById);
  ac_IncludeAll : option unit;
  ac_IncludeControls : option (list AssessedControlsSelectControlById);
  ac_Props : option (list Property);
  ac_Remarks : string
}.

Record ReviewedControls := mkReviewedControls {
  rc_ControlSelections : slice AssessedControls;
  rc_Description : string
}.

Record Step := mkStep {
  step_UUID : string;
  step_Title : string;
  step_Props : option (list Property);
  step_ReviewedControls : option ReviewedControls
}.

Record Activity := mkActivity {
  act_UUID : string;
  act_Title : string;
  act_Props : option (list Property);
  act_RelatedControls : option ReviewedControls;
  act_Steps : option (list Step)
}.

Record LocalDefinitions := mkLocalDefinitions {
  ld_Activities : option (list Activity)
}.

Record AssessmentPlan := mkAssessmentPlan {
  ap_UUID : string;
  ap_ReviewedControls : ReviewedControls;
  ap_LocalDefinitions : option LocalDefinitions
}.

(** [extensions.TrestleNameSpace] of oscal-sdk-go, the namespace of the
    skipped property; nothing below depends on its value. *)
Definition TrestleNameSpace : string :=
  "https://oscal-compass.github.io/compliance-trestle/schemas/oscal".

(** ** Component definitions, profiles, catalogs and collaborators *)

Record ImplementedRequirementControlImplementation := mkImplementedRequirement {
  ir_UUID : string;
  ir_ControlId : string
}.

Record ControlImplementationSet := mkControlImplementationSet {
  ci_Source : string;
  ci_Props : option (list Property);
  ci_ImplementedRequirements : slice ImplementedRequirementControlImplementation
}.

Record DefinedComponent := mkDefinedComponent {
  dc_Title : string;
  dc_ControlImplementations : option (list ControlImplementationSet)
}.

Record ComponentDefinition := mkComponentDefinition {
  cd_Components : option (list DefinedComponent)
}.

Record Import := mkImport { Href : string }.
Record Profile := mkProfile { Imports : slice Import }.
Record Control := mkControl { ID : string; Title : string }.
Record Group := mkGroup { Controls : option (list Control) }.
Record Catalog := mkCatalog { Groups : option (list Group) }.

(** A value and a nil error, or an error. *)
Inductive result (A : Type) : Type :=
  | Ok (a : A)
  | Err (msg : string).
Arguments Ok {A} a.
Arguments Err {A} msg.

(** The [ApplicationDirectory] interface: what its two methods return. *)
Record ApplicationDirectory := mkApplicationDirectory {
  AppDir : string;
  BundleDir : string
}.

(** [validation.Validator] of oscal-sdk-go.  The package never calls it
    and only hands it to the loader; a validator is a tag. *)
Record Validator := mkValidator { validator_tag : string }.

(** The [ProfileLoader] interface. *)
Record ProfileLoader := mkProfileLoader {
  LoadProfile : ApplicationDirectory → string → Validator → result Profile;
  LoadCatalogSource : ApplicationDirectory → string → Validator → result Catalog
}.

(** What the package uses of [extensions] in oscal-sdk-go: the name of the
    framework property and the lookup of a property by name. *)
Record Extensions := mkExtensions {
  FrameworkProp : string;
  GetTrestleProp : string → list Property → option Property
}.

(** ** The scope *)

Record ControlEntry := mkControlEntry {
  ControlID : string;
  ControlTitle : string;
  Rules : list string
}.

Record AssessmentScope := mkAssessmentScope {
  FrameworkID : string;
  IncludeControls : slice ControlEntry
}.

(** ** includeControlsSet *)

Abbreviation includeControlsSet := (gset string).

Definition Add (i : includeControlsSet) (controlID : string) : includeControlsSet :=
  {[controlID]} ∪ i.

Definition Has (i : includeControlsSet) (controlID : string) : bool :=
  bool_decide (controlID ∈ i).

Definition Added (i : includeControlsSet) (controlTitle : string) : includeControlsSet :=
  {[controlTitle]} ∪ i.

(** ** Map iteration and failure *)

(** [ρ n s] is the order in which the [n]-th executed [range] over a map
    yields the keys of [s]. *)
Definition RangeOracle : Type := nat → gset string → list string.

Definition range_ok (ρ : RangeOracle) : Prop :=
  ∀ n s, ρ n s ≡ₚ elements s.

(** Computations that count map iterations and may panic. *)
Definition M (A : Type) : Type := nat → option (A * nat).

Definition ret {A} (a : A) : M A := λ n, Some (a, n).

Definition bind {A B} (m : M A) (k : A → M B) : M B :=
  λ n, match m n with
       | Some (a, n') => k a n'
       | None => None
       end.

Definition panic {A} : M A := λ _, None.

Notation "'let*' p := m 'in' k" := (bind m (λ p, k))
  (at level 10, p pattern, m at level 100, k at level 200, only parsing).

Definition rangeKeys (ρ : RangeOracle) (s : gset string) : M (list string) :=
  λ n, Some (ρ n s, S n).

(** [All]: the keys of the set, in the order of one map iteration. *)
Definition All (ρ : RangeOracle) (i : includeControlsSet) : M (list string) :=
  rangeKeys ρ i.

(** ** getControlTitle *)

Fixpoint searchControls (controlID : string) (controls : list Control) : option string :=
  match controls with
  | [] => None
  | control :: rest =>
      if bool_decide (ID control = controlID) && negb (bool_decide (Title control = ""))
      then Some (Title control)
      else searchControls controlID rest
  end.

Fixpoint searchGroups (controlID : string) (groups : list Group) : option string :=
  match groups with
  | [] => None
  | group :: rest =>
      match Controls group with
      | None => searchGroups controlID rest
      | Some controls =>
          match searchControls controlID controls with
          | Some title => Some title
          | None => searchGroups controlID rest
          end
      end
  end.

Fixpoint searchImports (controlID : string) (appDir : ApplicationDirectory)
    (validator : Validator) (profileLoader : ProfileLoader) (imports : list Import)
    : option string :=
  match imports with
  | [] => None
  | imp :: rest =>
      match LoadCatalogSource profileLoader appDir (Href imp) validator with
      | Err _ => searchImports controlID appDir validator profileLoader rest
      | Ok catalog =>
          match Groups catalog with
          | None => searchImports controlID appDir validator profileLoader rest
          | Some groups =>
              match searchGroups controlID groups with
              | Some title => Some title
              | None => searchImports controlID appDir validator profileLoader rest
              end
          end
      end
  end.

Definition getControlTitle (controlID : string)
    (controlImplementation : ControlImplementationSet) (appDir : ApplicationDirectory)
    (validator : Validator) (profileLoader : ProfileLoader) : result string :=
  match LoadProfile profileLoader appDir (ci_Source controlImplementation) validator with
  | Err err =>
      Err ("failed to load profile from source '" +:+
           ci_Source controlImplementation +:+ "': " +:+ err)
  | Ok profile =>
      match Imports profile with
      | None =>
          Err ("profile '" +:+ ci_Source controlImplementation +:+ "' has no imports")
      | Some imports =>
          match searchImports controlID appDir validator profileLoader imports with
          | Some title => Ok title
          | None =>
              Err ("title for control '" +:+ controlID +:+ "' not found in catalog")
          end
      end
  end.

(** ** NewAssessmentScopeFromCDsWithTitles *)

Definition NewAssessmentScope (frameworkID : string) : AssessmentScope :=
  {| FrameworkID := frameworkID; IncludeControls := None |}.

(** The three collaborators, present only when none of them is nil. *)
Definition dependencies (appDir : option ApplicationDirectory)
    (validator : option Validator) (profileLoader : option ProfileLoader)
    : option (ApplicationDirectory * Validator * ProfileLoader) :=
  match appDir, validator, profileLoader with
  | Some a, Some v, Some p => Some (a, v, p)
  | _, _, _ => None
  end.

(** The two maps of the function, and the calls of [getControlTitle] made
    so far, oldest first. *)
Record BuildState := mkBuildState {
  includeControls : includeControlsSet;
  controlTitles : gmap string string;
  titleCalls : list (string * ControlImplementationSet)
}.

(** The body of the loop over implemented requirements. *)
Definition visitRequirement
    (deps : option (ApplicationDirectory * Validator * ProfileLoader))
    (ci : ControlImplementationSet) (st : BuildState)
    (ir : ImplementedRequirementControlImplementation) : BuildState :=
  if bool_decide (ir_ControlId ir = "") then st
  else
    let included := Add (includeControls st) (ir_ControlId ir) in
    match deps with
    | Some (appDir, validator, profileLoader) =>
        match controlTitles st !! ir_ControlId ir with
        | Some _ =>
            {| includeControls := included;
               controlTitles := controlTitles st;
               titleCalls := titleCalls st |}
        | None =>
            let title :=
              match getControlTitle (ir_ControlId ir) ci appDir validator profileLoader with
              | Err _ => ir_ControlId ir
              | Ok title => title
              end in
            {| includeControls := included;
               controlTitles := <[ir_ControlId ir := title]> (controlTitles st);
               titleCalls := titleCalls st ++ [(ir_ControlId ir, ci)] |}
        end
    | None =>
        {| includeControls := included;
           controlTitles := <[ir_ControlId ir := ir_ControlId ir]> (controlTitles st);
           titleCalls := titleCalls st |}
    end.

(** Whether the implementation carries the framework property with the
    requested value. *)
Definition frameworkMatches (ext : Extensions) (frameworkID : string)
    (props : list Property) : bool :=
  match GetTrestleProp ext (FrameworkProp ext) props with
  | Some frameworkProp => bool_decide (Value frameworkProp = frameworkID)
  | None => false
  end.

(** The body of the loop over control implementations. *)
Definition visitImplementation (ext : Extensions) (frameworkID : string)
    (deps : option (ApplicationDirectory * Validator * ProfileLoader))
    (st : BuildState) (ci : ControlImplementationSet) : BuildState :=
  match ci_ImplementedRequirements ci with
  | None => st
  | Some requirements =>
      match ci_Props ci with
      | None => st
      | Some props =>
          if frameworkMatches ext frameworkID props
          then foldl (visitRequirement deps ci) st requirements
          else st
      end
  end.

Definition visitComponent (ext : Extensions) (frameworkID : string)
    (deps : option (ApplicationDirectory * Validator * ProfileLoader))
    (st : BuildState) (component : DefinedComponent) : BuildState :=
  match dc_ControlImplementations component with
  | None => st
  | Some cis => foldl (visitImplementation ext frameworkID deps) st cis
  end.

Definition visitDefinition (ext : Extensions) (frameworkID : string)
    (deps : option (ApplicationDirectory * Validator * ProfileLoader))
    (st : BuildState) (componentDef : ComponentDefinition) : BuildState :=
  match cd_Components componentDef with
  | None => st
  | Some components => foldl (visitComponent ext frameworkID deps) st components
  end.

Definition emptyBuildState : BuildState :=
  {| includeControls := ∅; controlTitles := ∅; titleCalls := [] |}.

(** The state after the loop over the component definitions. *)
Definition collect (ext : Extensions) (frameworkID : string)
    (deps : option (ApplicationDirectory * Validator * ProfileLoader))
    (cds : list ComponentDefinition) : BuildState :=
  foldl (visitDefinition ext frameworkID deps) emptyBuildState cds.

(** [sort.Slice] of the Go standard library, as an insertion sort.  The
    library does not fix the algorithm; on a slice whose keys are pairwise
    distinct, as here, every sorting algorithm returns the same slice
    ([sort_Slice_unique]). *)
Fixpoint insertBy {A} (less : A → A → bool) (x : A) (l : list A) : list A :=
  match l with
  | [] => [x]
  | y :: l' => if less y x then y :: insertBy less x l' else x :: l
  end.

Definition sort_Slice {A} (less : A → A → bool) (l : list A) : list A :=
  foldr (insertBy less) [] l.

(** [controlTitles[id]]: the zero value for a missing key. *)
Definition titleOf (titles : gmap string string) (id : string) : string :=
  default "" (titles !! id).

Definition NewAssessmentScopeFromCDsWithTitles (ρ : RangeOracle) (ext : Extensions)
    (frameworkId : string) (appDir : option ApplicationDirectory)
    (validator : option Validator) (profileLoader : option ProfileLoader)
    (cds : slice ComponentDefinition) : M (AssessmentScope * option string) :=
  let scope := NewAssessmentScope frameworkId in
  match cds with
  | None =>
      ret ({| FrameworkID := ""; IncludeControls := None |},
           Some "no component definitions found")
  | Some cds =>
      let st := collect ext (FrameworkID scope)
                  (dependencies appDir validator profileLoader) cds in
      let* controlIDs := All ρ (includeControls st) in
      let included :=
        foldl (λ i id, if Has i id then Added i id else i) (includeControls st)
              controlIDs in
      let entries :=
        (λ id, {| ControlID := id;
                  ControlTitle := titleOf (controlTitles st) id;
                  Rules := ["*"] |}) <$> controlIDs in
      let sorted :=
        sort_Slice (λ ei ej, String.ltb (ControlID ei) (ControlID ej)) entries in
      ret ({| FrameworkID := FrameworkID scope; IncludeControls := Some sorted |},
           None)
  end.

Definition NewAssessmentScopeFromCDs (ρ : RangeOracle) (ext : Extensions)
    (frameworkId : string) (cds : slice ComponentDefinition)
    : M (AssessmentScope * option string) :=
  NewAssessmentScopeFromCDsWithTitles ρ ext frameworkId None None None cds.

(** ** filterControlSelection *)

Definition addPropNames (i : includeControlsSet) (props : option (list Property))
    : includeControlsSet :=
  match props with
  | Some ps => foldl (λ i p, Added i (Name p)) i ps
  | None => i
  end.

(** The set the code calls [originalIncludedControls]. *)
Definition originalIncludedControls (controlSelection : AssessedControls)
    : includeControlsSet :=
  match ac_IncludeControls controlSelection with
  | Some ics =>
      let i1 := foldl (λ i controlSelect,
                  addPropNames (Add i (ControlId controlSelect))
                               (ac_Props controlSelection)) ∅ ics in
      let i2 := foldl (λ i controlId, Add i (ControlId controlId)) i1 ics in
      addPropNames i2 (ac_Props controlSelection)
  | None => ∅
  end.

Definition newIncludedControls (includedAll : bool) (original : includeControlsSet)
    (keys : list string) : slice AssessedControlsSelectControlById :=
  foldl (λ acc controlId,
           if includedAll || Has original controlId
           then append acc (mkSelectControlById controlId None)
           else acc) None keys.

Definition set_filtered (cs : AssessedControls)
    (ics : option (list AssessedControlsSelectControlById)) : AssessedControls :=
  {| ac_Description := ac_Description cs;
     ac_ExcludeControls := ac_ExcludeControls cs;
     ac_IncludeAll := None;
     ac_IncludeControls := ics;
     ac_Props := ac_Props cs;
     ac_Remarks := ac_Remarks cs |}.

Definition filterControlSelection (ρ : RangeOracle)
    (controlSelection : AssessedControls) (includedControls : includeControlsSet)
    : M AssessedControls :=
  let includedAll := bool_decide (ac_IncludeAll controlSelection ≠ None) in
  let original := originalIncludedControls controlSelection in
  let* keys := rangeKeys ρ includedControls in
  let new := newIncludedControls includedAll original keys in
  ret (set_filtered controlSelection
         (match new with Some l => Some l | None => None end)).

(** ** applyControlScope *)

Definition skipped : Property :=
  {| Name := "skipped"; Value := "true"; Ns := TrestleNameSpace |}.

(** Allocate the property bag when it is nil, then append [p] to it. *)
Definition appendProp (props : option (list Property)) (p : Property)
    : option (list Property) :=
  Some (default [] props ++ [p]).

Definition set_act_RelatedControls (a : Activity) (rc : option ReviewedControls)
    : Activity :=
  {| act_UUID := act_UUID a; act_Title := act_Title a; act_Props := act_Props a;
     act_RelatedControls := rc; act_Steps := act_Steps a |}.

Definition set_act_Props (a : Activity) (ps : option (list Property)) : Activity :=
  {| act_UUID := act_UUID a; act_Title := act_Title a; act_Props := ps;
     act_RelatedControls := act_RelatedControls a; act_Steps := act_Steps a |}.

Definition set_act_Steps (a : Activity) (ss : option (list Step)) : Activity :=
  {| act_UUID := act_UUID a; act_Title := act_Title a; act_Props := act_Props a;
     act_RelatedControls := act_RelatedControls a; act_Steps := ss |}.

Definition set_step_ReviewedControls (s : Step) (rc : option ReviewedControls) : Step :=
  {| step_UUID := step_UUID s; step_Title := step_Title s; step_Props := step_Props s;
     step_ReviewedControls := rc |}.

Definition set_step_Props (s : Step) (ps : option (list Property)) : Step :=
  {| step_UUID := step_UUID s; step_Title := step_Title s; step_Props := ps;
     step_ReviewedControls := step_ReviewedControls s |}.

Definition set_rc_ControlSelections (rc : ReviewedControls)
    (sels : slice AssessedControls) : ReviewedControls :=
  {| rc_ControlSelections := sels; rc_Description := rc_Description rc |}.

(** The set built from the scope's entries. *)
Definition includedControlsOf (a : AssessmentScope) : includeControlsSet :=
  foldl (λ i entry, Add i (ControlID entry)) ∅ (elems (IncludeControls a)).

(** The loop over an activity's [RelatedControls.ControlSelections].  The
    local slice [controlSelections] keeps the backing array alive after
    [activity.RelatedControls] is cleared, so the iteration carries on; the
    filtered array is returned next to the activity. *)
Fixpoint relatedControlsLoop (ρ : RangeOracle) (includedControls : includeControlsSet)
    (controlSelections : list AssessedControls) (activity : Activity)
    : M (list AssessedControls * Activity) :=
  match controlSelections with
  | [] => ret ([], activity)
  | controlSelection :: rest =>
      let* cs := filterControlSelection ρ controlSelection includedControls in
      let activity :=
        match ac_IncludeControls cs with
        | None =>
            set_act_Props (set_act_RelatedControls activity None)
                          (appendProp (act_Props activity) skipped)
        | Some _ => activity
        end in
      let* (rest', activity) := relatedControlsLoop ρ includedControls rest activity in
      ret (cs :: rest', activity)
  end.

(** The filtered elements live in the array that [RelatedControls] still
    points to, when it points to anything. *)
Definition storeRelated (activity : Activity) (arr : list AssessedControls) : Activity :=
  match act_RelatedControls activity with
  | Some rc => set_act_RelatedControls activity (Some (set_rc_ControlSelections rc (Some arr)))
  | None => activity
  end.

Definition applyRelatedControls (ρ : RangeOracle) (includedControls : includeControlsSet)
    (activity : Activity) : M Activity :=
  match act_RelatedControls activity with
  | Some rc =>
      match rc_ControlSelections rc with
      | Some controlSelections =>
          let* (arr, activity) := relatedControlsLoop ρ includedControls controlSelections activity in
          ret (storeRelated activity arr)
      | None => ret activity
      end
  | None => ret activity
  end.

(** The loop over a step's [ReviewedControls.ControlSelections].  The
    assignment [activity.RelatedControls.ControlSelections = nil] dereferences
    [activity.RelatedControls]. *)
Fixpoint reviewedControlsLoop (ρ : RangeOracle) (includedControls : includeControlsSet)
    (controlSelections : list AssessedControls) (activity : Activity) (step : Step)
    : M (list AssessedControls * Activity * Step) :=
  match controlSelections with
  | [] => ret ([], activity, step)
  | controlSelection :: rest =>
      let* cs := filterControlSelection ρ controlSelection includedControls in
      let* (activity, step) :=
        match ac_IncludeControls cs with
        | None =>
            match act_RelatedControls activity with
            | None => panic
            | Some rc =>
                ret (set_act_RelatedControls activity
                       (Some (set_rc_ControlSelections rc None)),
                     set_step_Props (set_step_ReviewedControls step None)
                       (appendProp (step_Props step) skipped))
            end
        | Some _ => ret (activity, step)
        end in
      let* (rest', activity, step) :=
        reviewedControlsLoop ρ includedControls rest activity step in
      ret (cs :: rest', activity, step)
  end.

Definition storeReviewed (step : Step) (arr : list AssessedControls) : Step :=
  match step_ReviewedControls step with
  | Some rc => set_step_ReviewedControls step (Some (set_rc_ControlSelections rc (Some arr)))
  | None => step
  end.

Definition applyStep (ρ : RangeOracle) (includedControls : includeControlsSet)
    (activity : Activity) (step : Step) : M (Activity * Step) :=
  match step_ReviewedControls step with
  | None => ret (activity, step)
  | Some rc =>
      match rc_ControlSelections rc with
      | None => ret (activity, step)
      | Some controlSelections =>
          let* (arr, activity, step) :=
            reviewedControlsLoop ρ includedControls controlSelections activity step in
          ret (activity, storeReviewed step arr)
      end
  end.

Fixpoint stepsLoop (ρ : RangeOracle) (includedControls : includeControlsSet)
    (steps : list Step) (activity : Activity) : M (list Step * Activity) :=
  match steps with
  | [] => ret ([], activity)
  | step :: rest =>
      let* (activity, step) := applyStep ρ includedControls activity step in
      let* (rest', activity) := stepsLoop ρ includedControls rest activity in
      ret (step :: rest', activity)
  end.

Definition applyActivity (ρ : RangeOracle) (includedControls : includeControlsSet)
    (activity : Activity) : M Activity :=
  let* activity := applyRelatedControls ρ includedControls activity in
  match act_Steps activity with
  | Some steps =>
      let* (steps, activity) := stepsLoop ρ includedControls steps activity in
      ret (set_act_Steps activity (Some steps))
  | None => ret activity
  end.

Fixpoint mapM {A B} (f : A → M B) (l : list A) : M (list B) :=
  match l with
  | [] => ret []
  | x :: l => let* y := f x in let* l' := mapM f l in ret (y :: l')
  end.

Definition applyLocalDefinitions (ρ : RangeOracle) (includedControls : includeControlsSet)
    (ld : option LocalDefinitions) : M (option LocalDefinitions) :=
  match ld with
  | Some d =>
      match ld_Activities d with
      | Some activities =>
          let* activities := mapM (applyActivity ρ includedControls) activities in
          ret (Some {| ld_Activities := Some activities |})
      | None => ret ld
      end
  | None => ret ld
  end.

Definition applyRoot (ρ : RangeOracle) (includedControls : includeControlsSet)
    (rc : ReviewedControls) : M ReviewedControls :=
  match rc_ControlSelections rc with
  | Some controlSelections =>
      let* arr := mapM (λ cs, filterControlSelection ρ cs includedControls) controlSelections in
      ret (set_rc_ControlSelections rc (Some arr))
  | None => ret rc
  end.

Definition applyControlScope (ρ : RangeOracle) (a : AssessmentScope)
    (assessmentPlan : AssessmentPlan) : M AssessmentPlan :=
  let includedControls := includedControlsOf a in
  let* ld := applyLocalDefinitions ρ includedControls (ap_LocalDefinitions assessmentPlan) in
  let* rc := applyRoot ρ includedControls (ap_ReviewedControls assessmentPlan) in
  ret {| ap_UUID := ap_UUID assessmentPlan;
         ap_ReviewedControls := rc;
         ap_LocalDefinitions := ld |}.

Definition ApplyScope (ρ : RangeOracle) (a : AssessmentScope)
    (assessmentPlan : AssessmentPlan) : M AssessmentPlan :=
  applyControlScope ρ a assessmentPlan.

(** Two applications in a row, in one run of the program. *)
Definition applyTwice (ρ : RangeOracle) (a : AssessmentScope) (p : AssessmentPlan)
    : M (AssessmentPlan * AssessmentPlan) :=
  let* p1 := ApplyScope ρ a p in
  let* p2 := ApplyScope ρ a p1 in
  ret (p1, p2).

(** * Part II: vocabulary of the properties *)

(** ** Include lists *)

Definition mkSel (controlId : string) : AssessedControlsSelectControlById :=
  mkSelectControlById controlId None.

(** The identifiers of an include list, absent read as empty. *)
Definition idsOf (ics : option (list AssessedControlsSelectControlById)) : list string :=
  ControlId <$> default [] ics.

Definition propNames (props : option (list Property)) : list string :=
  Name <$> default [] props.

(** The test of the loop over the in-scope set. *)
Definition keeps (cs : AssessedControls) (controlId : string) : bool :=
  bool_decide (ac_IncludeAll cs ≠ None) || Has (originalIncludedControls cs) controlId.

Definition nonempty {A} (l : list A) : option (list A) :=
  match l with [] => None | _ => Some l end.

(** Every step of every activity of a plan. *)
Definition stepsOf (p : AssessmentPlan) : list Step :=
  match ap_LocalDefinitions p with
  | Some d => a ← default [] (ld_Activities d); default [] (act_Steps a)
  | None => []
  end.

Definition countSkipped (props : option (list Property)) : nat :=
  length (filter (λ p, Name p = "skipped" ∧ Value p = "true") (default [] props)).

(** ** Plans up to the order of include lists *)

(** Equality of plans up to the order of the identifiers inside each
    [IncludeControls] sequence. *)
Definition sel_equiv (c1 c2 : AssessedControls) : Prop :=
  ac_Description c1 = ac_Description c2 ∧
  ac_ExcludeControls c1 = ac_ExcludeControls c2 ∧
  ac_IncludeAll c1 = ac_IncludeAll c2 ∧
  option_Forall2 (≡ₚ) (ac_IncludeControls c1) (ac_IncludeControls c2) ∧
  ac_Props c1 = ac_Props c2 ∧
  ac_Remarks c1 = ac_Remarks c2.

Definition rc_equiv (r1 r2 : ReviewedControls) : Prop :=
  rc_Description r1 = rc_Description r2 ∧
  option_Forall2 (Forall2 sel_equiv) (rc_ControlSelections r1) (rc_ControlSelections r2).

Definition step_equiv (s1 s2 : Step) : Prop :=
  step_UUID s1 = step_UUID s2 ∧
  step_Title s1 = step_Title s2 ∧
  step_Props s1 = step_Props s2 ∧
  option_Forall2 rc_equiv (step_ReviewedControls s1) (step_ReviewedControls s2).

Definition act_equiv (a1 a2 : Activity) : Prop :=
  act_UUID a1 = act_UUID a2 ∧
  act_Title a1 = act_Title a2 ∧
  act_Props a1 = act_Props a2 ∧
  option_Forall2 rc_equiv (act_RelatedControls a1) (act_RelatedControls a2) ∧
  option_Forall2 (Forall2 step_equiv) (act_Steps a1) (act_Steps a2).

Definition ld_equiv (d1 d2 : LocalDefinitions) : Prop :=
  option_Forall2 (Forall2 act_equiv) (ld_Activities d1) (ld_Activities d2).

Definition plan_equiv (p1 p2 : AssessmentPlan) : Prop :=
  ap_UUID p1 = ap_UUID p2 ∧
  rc_equiv (ap_ReviewedControls p1) (ap_ReviewedControls p2) ∧
  option_Forall2 ld_equiv (ap_LocalDefinitions p1) (ap_LocalDefinitions p2).

(** ** Plans after one application *)

(** A node as one pass of the filter leaves it when it keeps something:
    no include-all marker, a non-empty duplicate-free list of in-scope
    identifiers without statement ids, closed under the in-scope property
    names. *)
Definition settled (S : includeControlsSet) (cs : AssessedControls) : Prop :=
  ac_IncludeAll cs = None ∧
  ∃ ids, ids ≠ [] ∧
    ac_IncludeControls cs = Some (mkSel <$> ids) ∧
    NoDup ids ∧
    (∀ x, x ∈ ids → x ∈ S) ∧
    (∀ x, x ∈ S → x ∈ propNames (ac_Props cs) → x ∈ ids).

(** A node as one pass leaves it when it keeps nothing. *)
Definition cleared (cs : AssessedControls) : Prop :=
  ac_IncludeAll cs = None ∧ ac_IncludeControls cs = None.

(** The selections still reachable through an optional [ReviewedControls]
    are all settled. *)
Definition rc_settled (S : includeControlsSet) (orc : option ReviewedControls) : Prop :=
  ∀ rc arr, orc = Some rc → rc_ControlSelections rc = Some arr → Forall (settled S) arr.

Definition step_ok (S : includeControlsSet) (st : Step) : Prop :=
  rc_settled S (step_ReviewedControls st).

Definition act_ok (S : includeControlsSet) (a : Activity) : Prop :=
  rc_settled S (act_RelatedControls a) ∧
  ∀ steps, act_Steps a = Some steps → Forall (step_ok S) steps.

Definition ld_ok (S : includeControlsSet) (ld : option LocalDefinitions) : Prop :=
  ∀ d acts, ld = Some d → ld_Activities d = Some acts → Forall (act_ok S) acts.

Definition root_ok (S : includeControlsSet) (rc : ReviewedControls) : Prop :=
  ∀ arr, rc_ControlSelections rc = Some arr →
    Forall (λ cs, cleared cs ∨ settled S cs) arr.

(** ** Plans on which an application fails *)

(** The node keeps none of the in-scope identifiers. *)
Definition keepsNothing (S : includeControlsSet) (cs : AssessedControls) : bool :=
  forallb (λ k, negb (keeps cs k)) (elements S).

(** Some selection of the step keeps nothing. *)
Definition stepLoses (S : includeControlsSet) (step : Step) : bool :=
  match step_ReviewedControls step with
  | Some rc => existsb (keepsNothing S) (elems (rc_ControlSelections rc))
  | None => false
  end.

(** The activity has no [RelatedControls] once its own selections have
    been filtered. *)
Definition relatedLost (S : includeControlsSet) (activity : Activity) : bool :=
  match act_RelatedControls activity with
  | Some rc => existsb (keepsNothing S) (elems (rc_ControlSelections rc))
  | None => true
  end.

Definition activityFails (S : includeControlsSet) (activity : Activity) : bool :=
  relatedLost S activity && existsb (stepLoses S) (default [] (act_Steps activity)).

Definition planFails (S : includeControlsSet) (p : AssessmentPlan) : bool :=
  match ap_LocalDefinitions p with
  | Some d => existsb (activityFails S) (default [] (ld_Activities d))
  | None => false
  end.

(** ** The builder *)

(** The comparison [less] that orders by a string key, and the orders it
    induces. *)
Definition lessKey {A} (key : A → string) (a b : A) : bool :=
  String.ltb (key a) (key b).

Definition leKey {A} (key : A → string) (a b : A) : Prop :=
  String.le (key a) (key b).

Definition ltKey {A} (key : A → string) (a b : A) : Prop :=
  String.ltb (key a) (key b) = true.

(** The identifiers named by the implemented requirements of the
    implementations tagged for the requested framework, in traversal
    order, repetitions included. *)
Definition requirementIDs_ci (ext : Extensions) (frameworkID : string)
    (ci : ControlImplementationSet) : list string :=
  match ci_ImplementedRequirements ci, ci_Props ci with
  | Some requirements, Some props =>
      if frameworkMatches ext frameworkID props
      then filter (λ id, id ≠ "") (ir_ControlId <$> requirements)
      else []
  | _, _ => []
  end.

Definition requirementIDs_dc (ext : Extensions) (frameworkID : string)
    (component : DefinedComponent) : list string :=
  ci ← default [] (dc_ControlImplementations component);
  requirementIDs_ci ext frameworkID ci.

Definition requirementIDs_cd (ext : Extensions) (frameworkID : string)
    (componentDef : ComponentDefinition) : list string :=
  component ← default [] (cd_Components componentDef);
  requirementIDs_dc ext frameworkID component.

Definition requirementIDs (ext : Extensions) (frameworkID : string)
    (cds : list ComponentDefinition) : list string :=
  componentDef ← cds; requirementIDs_cd ext frameworkID componentDef.

Definition entryOf (st : BuildState) (id : string) : ControlEntry :=
  {| ControlID := id; ControlTitle := titleOf (controlTitles st) id; Rules := ["*"] |}.

(** The title an invocation of the resolver leaves in the map. *)
Definition resolvedTitle (id : string) (ci : ControlImplementationSet)
    (deps : ApplicationDirectory * Validator * ProfileLoader) : string :=
  match getControlTitle id ci deps.1.1 deps.1.2 deps.2 with
  | Err _ => id
  | Ok title => title
  end.

(** With the collaborators present: the resolver was called once for each
    key of the title map, and the map holds what the call left there. *)
Definition resolved (d : ApplicationDirectory * Validator * ProfileLoader)
    (st : BuildState) : Prop :=
  NoDup (titleCalls st).*1 ∧
  (∀ id, id ∈ (titleCalls st).*1 ↔ is_Some (controlTitles st !! id)) ∧
  (∀ id, id ∈ includeControls st ↔ is_Some (controlTitles st !! id)) ∧
  (∀ id ci, (id, ci) ∈ titleCalls st →
     controlTitles st !! id = Some (resolvedTitle id ci d)).

(** With a collaborator missing: no call, and every title is the
    identifier. *)
Definition unresolved (st : BuildState) : Prop :=
  titleCalls st = [] ∧
  (∀ id, id ∈ includeControls st → controlTitles st !! id = Some id).

(** * Part III: concrete inputs *)

(** ** Iteration orders *)

(** Two iteration orders: keys in ascending and in descending order. *)
Definition ascending : RangeOracle := λ _ s, merge_sort String.le (elements s).
Definition descending : RangeOracle :=
  λ _ s, reverse (merge_sort String.le (elements s)).

(** The first map iteration ascending, the later ones descending. *)
Definition flipping : RangeOracle :=
  λ n s, if decide (n = 0) then ascending n s else descending n s.

(** ** Selections, scopes and plans *)

Definition selection (ids : list string) (props : option (list Property))
    : AssessedControls :=
  {| ac_Description := ""; ac_ExcludeControls := None; ac_IncludeAll := None;
     ac_IncludeControls := Some (mkSel <$> ids); ac_Props := props;
     ac_Remarks := "" |}.

Definition scopeOf (ids : list string) : AssessmentScope :=
  {| FrameworkID := "test";
     IncludeControls := Some ((λ i, mkControlEntry i i ["*"]) <$> ids) |}.

(** A node that lists control A and carries a property named B. *)
Definition node_A_propB : AssessedControls :=
  selection ["A"] (Some [ {| Name := "B"; Value := "v"; Ns := "" |} ]).

(** A node that lists controls A and C and carries a property named B. *)
Definition node_AC_propB : AssessedControls :=
  selection ["A"; "C"] (Some [ {| Name := "B"; Value := "v"; Ns := "" |} ]).

(** A plan whose only selection is that node, at the root. *)
Definition plan_root_A_propB : AssessmentPlan :=
  {| ap_UUID := "plan";
     ap_ReviewedControls :=
       {| rc_ControlSelections := Some [node_A_propB]; rc_Description := "" |};
     ap_LocalDefinitions := None |}.

(** A concrete plan: one root selection listing A and B. *)
Definition plan_root_AB : AssessmentPlan :=
  {| ap_UUID := "plan";
     ap_ReviewedControls :=
       {| rc_ControlSelections := Some [selection ["A"; "B"] None];
          rc_Description := "" |};
     ap_LocalDefinitions := None |}.

(** A plan with selections at the three levels: an activity that keeps
    control A and has one step that loses every control and one that keeps
    two, an activity that loses every control, and two root selections, one
    of them with an include-all marker. *)
Definition plan_nested : AssessmentPlan :=
  {| ap_UUID := "plan";
     ap_ReviewedControls :=
       {| rc_ControlSelections := Some
            [ {| ac_Description := ""; ac_ExcludeControls := Some [mkSel "B"];
                 ac_IncludeAll := Some (); ac_IncludeControls := None;
                 ac_Props := None; ac_Remarks := "" |};
              selection ["C"; "B"; "A"] None ];
          rc_Description := "" |};
     ap_LocalDefinitions := Some
       {| ld_Activities := Some
            [ {| act_UUID := "activity-1"; act_Title := "First"; act_Props := None;
                 act_RelatedControls :=
                   Some {| rc_ControlSelections := Some [selection ["A"; "C"] None];
                           rc_Description := "" |};
                 act_Steps := Some
                   [ {| step_UUID := "step-1"; step_Title := "Lost"; step_Props := None;
                        step_ReviewedControls :=
                          Some {| rc_ControlSelections := Some [selection ["C"] None];
                                  rc_Description := "" |} |};
                     {| step_UUID := "step-2"; step_Title := "Kept"; step_Props := None;
                        step_ReviewedControls :=
                          Some {| rc_ControlSelections := Some [selection ["B"; "A"] None];
                                  rc_Description := "" |} |} ] |};
              {| act_UUID := "activity-2"; act_Title := "Second"; act_Props := None;
                 act_RelatedControls :=
                   Some {| rc_ControlSelections := Some [selection ["C"] None];
                           rc_Description := "" |};
                 act_Steps := None |} ] |} |}.

(** What one application of the scope {A, B} makes of it, keys ascending. *)
Definition plan_nested_applied : AssessmentPlan :=
  Eval vm_compute in
    match ApplyScope ascending (scopeOf ["A"; "B"]) plan_nested 0 with
    | Some (p, _) => p
    | None => plan_nested
    end.

Definition step_reviewing (ids : list string) : Step :=
  {| step_UUID := "step-1"; step_Title := "Step"; step_Props := None;
     step_ReviewedControls :=
       Some {| rc_ControlSelections := Some [selection ids None];
               rc_Description := "" |} |}.

Definition plan_of_activity (activity : Activity) : AssessmentPlan :=
  {| ap_UUID := "plan";
     ap_ReviewedControls := {| rc_ControlSelections := None; rc_Description := "" |};
     ap_LocalDefinitions := Some {| ld_Activities := Some [activity] |} |}.

(** An activity without [RelatedControls] whose only step reviews control
    example-1. *)
Definition activity_without_related : Activity :=
  {| act_UUID := "activity-1"; act_Title := "Activity"; act_Props := None;
     act_RelatedControls := None;
     act_Steps := Some [step_reviewing ["example-1"]] |}.

(** The same activity with a [RelatedControls] that selects nothing. *)
Definition activity_with_related : Activity :=
  {| act_UUID := "activity-1"; act_Title := "Activity"; act_Props := None;
     act_RelatedControls :=
       Some {| rc_ControlSelections := None; rc_Description := "" |};
     act_Steps := Some [step_reviewing ["example-1"]] |}.

(** ** Component definitions and collaborators *)

(** The lookup of a namespaced property by name, as used in the examples:
    the first property with that name in the trestle namespace. *)
Definition trestle : Extensions :=
  {| FrameworkProp := "Framework_Short_Name";
     GetTrestleProp := λ name props,
       head (filter (λ p, Name p = name ∧ Ns p = TrestleNameSpace) props) |}.

Definition frameworkTag (frameworkID : string) : Property :=
  {| Name := "Framework_Short_Name"; Value := frameworkID; Ns := TrestleNameSpace |}.

Definition implementation (frameworkID : string) (ids : list string)
    : ControlImplementationSet :=
  {| ci_Source := "profile.json";
     ci_Props := Some [frameworkTag frameworkID];
     ci_ImplementedRequirements := Some (mkImplementedRequirement "" <$> ids) |}.

Definition component (title : string) (cis : list ControlImplementationSet)
    : DefinedComponent :=
  {| dc_Title := title; dc_ControlImplementations := Some cis |}.

(** Two components implementing the same two controls, listed in
    descending order, and a third tagged for another framework. *)
Definition cd_duplicates : ComponentDefinition :=
  {| cd_Components := Some
       [ component "Component" [implementation "example" ["control-2"; "control-1"]];
         component "AnotherComponent" [implementation "example" ["control-1"; "control-2"]];
         component "Other" [implementation "other" ["control-9"]] ] |}.

Definition testAppDir : ApplicationDirectory :=
  {| AppDir := "/test/app"; BundleDir := "/test/bundle" |}.

Definition testValidator : Validator := {| validator_tag := "test" |}.

(** A loader whose catalog knows a title for control-1 only. *)
Definition testProfileLoader : ProfileLoader :=
  {| LoadProfile := λ _ _ _, Ok {| Imports := Some [ {| Href := "catalog.json" |} ] |};
     LoadCatalogSource := λ _ _ _,
       Ok {| Groups := Some
               [ {| Controls := Some [ {| ID := "control-1";
                                          Title := "Example Control 1" |} ] |} ] |} |}.


(** * Part I, continued: the scan command *)

(** ** runScan: gathering the control implementations

    The loop of [runScan] (cmd/complytime/cli/scan.go) that collects the
    control implementations of every component of the configured component
    definitions before the implementation settings are computed.
    [compDef.Components] is dereferenced without a nil check. *)

(** [append(s, xs...)]: nothing appended returns [s] itself. *)
Definition appendAll {A} (s : slice A) (xs : list A) : slice A :=
  match xs with
  | [] => s
  | _ => Some (elems s ++ xs)
  end.

Definition gatherComponent (allImplementations : slice ControlImplementationSet)
    (component : DefinedComponent) : slice ControlImplementationSet :=
  match dc_ControlImplementations component with
  | None => allImplementations
  | Some cis => appendAll allImplementations cis
  end.

Definition gatherDefinition (allImplementations : slice ControlImplementationSet)
    (compDef : ComponentDefinition) : option (slice ControlImplementationSet) :=
  match cd_Components compDef with
  | None => None
  | Some components => Some (foldl gatherComponent allImplementations components)
  end.

(** [None] is the panic; [Some None] is the nil slice the loop starts from. *)
Definition gatherImplementations (componentDefinitions : list ComponentDefinition)
    : option (slice ControlImplementationSet) :=
  foldl (λ acc compDef, acc ≫= λ all, gatherDefinition all compDef)
        (Some None) componentDefinitions.

(** * Parts II and III, continued: further vocabulary and inputs *)

(** ** Catalog lookups *)

(** A catalog that one of the imports loads lists the control, with this
    non-empty title, in one of its top-level groups. *)
Definition titledIn (controlID title : string) (appDir : ApplicationDirectory)
    (validator : Validator) (profileLoader : ProfileLoader) (imports : list Import)
    : Prop :=
  ∃ imp catalog groups group controls control,
    imp ∈ imports ∧
    LoadCatalogSource profileLoader appDir (Href imp) validator = Ok catalog ∧
    Groups catalog = Some groups ∧ group ∈ groups ∧
    Controls group = Some controls ∧ control ∈ controls ∧
    ID control = controlID ∧ Title control = title ∧ title ≠ "".

(** A loader whose first import cannot be loaded, whose second catalog has
    no groups and whose third catalog knows control-1. *)
Definition patchyProfileLoader : ProfileLoader :=
  {| LoadProfile := λ _ _ _,
       Ok {| Imports := Some [ {| Href := "missing.json" |};
                               {| Href := "empty.json" |};
                               {| Href := "catalog.json" |} ] |};
     LoadCatalogSource := λ _ href _,
       if bool_decide (href = "missing.json") then Err "no such file"
       else if bool_decide (href = "empty.json") then Ok {| Groups := None |}
       else Ok {| Groups := Some
                    [ {| Controls := None |};
                      {| Controls := Some [ {| ID := "control-1"; Title := "" |};
                                            {| ID := "control-1";
                                               Title := "Example Control 1" |} ] |} ] |} |}.

(** ** Component definitions *)

(** Some implemented requirement of an implementation tagged for the
    framework, in some component of some document, names the (non-empty)
    identifier. *)
Definition implementedBy (ext : Extensions) (frameworkID : string)
    (cds : list ComponentDefinition) (id : string) : Prop :=
  id ≠ "" ∧
  ∃ cd components component cis ci requirements props frameworkProp ir,
    cd ∈ cds ∧ cd_Components cd = Some components ∧
    component ∈ components ∧ dc_ControlImplementations component = Some cis ∧
    ci ∈ cis ∧ ci_ImplementedRequirements ci = Some requirements ∧
    ci_Props ci = Some props ∧
    GetTrestleProp ext (FrameworkProp ext) props = Some frameworkProp ∧
    Value frameworkProp = frameworkID ∧
    ir ∈ requirements ∧ ir_ControlId ir = id.

(** The scope a call returns, whatever the iteration counter. *)
Definition scopeOfCall (r : option ((AssessmentScope * option string) * nat))
    : option (AssessmentScope * option string) :=
  fst <$> r.

(** Every title in the map is non-empty, and every collected identifier
    is non-empty and has a title. *)
Definition wellTitled (st : BuildState) : Prop :=
  (∀ id t, controlTitles st !! id = Some t → t ≠ "") ∧
  (∀ id, id ∈ includeControls st → id ≠ "" ∧ is_Some (controlTitles st !! id)).

(** Three documents for the builder: one with no components, one tagged
    for the framework and one tagged for another framework. *)
Definition cd_empty : ComponentDefinition := {| cd_Components := None |}.

Definition cd_single : ComponentDefinition :=
  {| cd_Components := Some
       [ component "Single" [implementation "example" ["control-3"; ""; "control-1"]] ] |}.

(** ** Selections *)

(** A node with an include-all marker that also lists control Z with a
    statement id, and has a property named B. *)
Definition node_all : AssessedControls :=
  {| ac_Description := "everything";
     ac_ExcludeControls := Some [mkSel "A"];
     ac_IncludeAll := Some ();
     ac_IncludeControls := Some [ {| ControlId := "Z"; StatementIds := Some ["Z_smt"] |} ];
     ac_Props := Some [ {| Name := "B"; Value := "v"; Ns := "" |} ];
     ac_Remarks := "" |}.

(** A node listing A, B and C, with statement ids on A, and no property. *)
Definition node_ABC : AssessedControls :=
  {| ac_Description := ""; ac_ExcludeControls := None; ac_IncludeAll := None;
     ac_IncludeControls := Some
       [ {| ControlId := "A"; StatementIds := Some ["A_smt.a"] |};
         mkSel "B"; mkSel "C"; mkSel "A" ];
     ac_Props := None; ac_Remarks := "" |}.

(** ** Plans *)

(** The control is one the filter keeps for the node: it is in scope, and
    the node has an include-all marker, or lists the control, or has an
    include list and a property with that name. *)
Definition kept (S : includeControlsSet) (cs : AssessedControls) (x : string) : Prop :=
  x ∈ S ∧
  (ac_IncludeAll cs ≠ None ∨
   x ∈ idsOf (ac_IncludeControls cs) ∨
   (ac_IncludeControls cs ≠ None ∧ x ∈ propNames (ac_Props cs))).

Definition activitiesOf (p : AssessmentPlan) : list Activity :=
  match ap_LocalDefinitions p with
  | Some d => default [] (ld_Activities d)
  | None => []
  end.

Definition selectionsIn (orc : option ReviewedControls) : list AssessedControls :=
  match orc with
  | Some rc => elems (rc_ControlSelections rc)
  | None => []
  end.

(** The selections under the activities and their steps. *)
Definition localSelectionsOf (p : AssessmentPlan) : list AssessedControls :=
  a ← activitiesOf p;
  selectionsIn (act_RelatedControls a) ++
  (s ← default [] (act_Steps a); selectionsIn (step_ReviewedControls s)).

Definition rootSelectionsOf (p : AssessmentPlan) : list AssessedControls :=
  elems (rc_ControlSelections (ap_ReviewedControls p)).

(** The second property bag is the first with skipped properties appended. *)
Definition annotated (props props' : option (list Property)) : Prop :=
  ∃ k, default [] props' = default [] props ++ replicate k skipped.

Definition step_kept (s s' : Step) : Prop :=
  step_UUID s' = step_UUID s ∧ step_Title s' = step_Title s ∧
  annotated (step_Props s) (step_Props s').

Definition act_kept (a a' : Activity) : Prop :=
  act_UUID a' = act_UUID a ∧ act_Title a' = act_Title a ∧
  annotated (act_Props a) (act_Props a') ∧
  option_Forall2 (Forall2 step_kept) (act_Steps a) (act_Steps a').

(** An activity whose two selections both lose every control under the
    scope {A}, with one property of its own. *)
Definition activity_two_empty : Activity :=
  {| act_UUID := "activity-3"; act_Title := "Third";
     act_Props := Some [ {| Name := "label"; Value := "x"; Ns := "" |} ];
     act_RelatedControls :=
       Some {| rc_ControlSelections :=
                 Some [selection ["B"] None; selection ["A"] None; selection ["C"] None];
               rc_Description := "" |};
     act_Steps := None |}.

(** ** The scan command *)

(** The implementations of the components of the documents, in document
    order. *)
Definition implementationsOf (cds : list ComponentDefinition)
    : list ControlImplementationSet :=
  cd ← cds; component ← default [] (cd_Components cd);
  default [] (dc_ControlImplementations component).

(** A step with two selections that keep nothing under the scope {A} and
    one that keeps A. *)
Definition step_two_empty : Step :=
  {| step_UUID := "step-3"; step_Title := "Third"; step_Props := None;
     step_ReviewedControls :=
       Some {| rc_ControlSelections :=
                 Some [selection ["B"] None; selection ["A"] None; selection ["C"] None];
               rc_Description := "" |} |}.

(** An activity that keeps control A itself. *)
Definition activity_keeping_A : Activity :=
  {| act_UUID := "activity-4"; act_Title := "Fourth"; act_Props := None;
     act_RelatedControls :=
       Some {| rc_ControlSelections := Some [selection ["A"] None];
               rc_Description := "kept" |};
     act_Steps := Some [step_two_empty] |}.

(** A plan with two root selections and an activity whose
    [RelatedControls] selects nothing and whose step reviews example-1. *)
Definition plan_rooted : AssessmentPlan :=
  {| ap_UUID := "plan";
     ap_ReviewedControls :=
       {| rc_ControlSelections := Some [selection ["A"] None; node_all];
          rc_Description := "" |};
     ap_LocalDefinitions := Some {| ld_Activities := Some [activity_with_related] |} |}.

(** * Part IV: lemmas and theorems *)

(** Unfold one monadic step of a hypothesis. *)
Ltac bind_inv H :=
  unfold bind in H at 1;
  match type of H with
  | match ?m with _ => _ end = _ =>
      let E := fresh "E" in
      destruct m as [[? ?]|] eqn:E; [|discriminate H]
  end.

(** ** The filter *)

Lemma elem_of_foldl_Add {A} (f : A → string) (l : list A) (i : includeControlsSet) x :
  x ∈ foldl (λ i a, Add i (f a)) i l ↔ x ∈ f <$> l ∨ x ∈ i.
Proof.
  revert i. induction l as [|a l IH]; intros i; simpl.
  - set_solver.
  - rewrite IH. unfold Add. set_solver.
Qed.

Lemma elem_of_addPropNames i props x :
  x ∈ addPropNames i props ↔ x ∈ propNames props ∨ x ∈ i.
Proof.
  unfold addPropNames, propNames. destruct props as [ps|]; simpl.
  - apply (elem_of_foldl_Add Name).
  - set_solver.
Qed.

Lemma elem_of_first_loop props (ics : list AssessedControlsSelectControlById)
    (i : includeControlsSet) x :
  x ∈ foldl (λ i c, addPropNames (Add i (ControlId c)) props) i ics ↔
  x ∈ ControlId <$> ics ∨ (ics ≠ [] ∧ x ∈ propNames props) ∨ x ∈ i.
Proof.
  revert i. induction ics as [|c ics IH]; intros i; simpl.
  - set_solver.
  - rewrite IH, elem_of_addPropNames. unfold Add.
    destruct ics; set_solver.
Qed.

(** What [originalIncludedControls] holds: the explicit identifiers and,
    when the include list is present, the names of the node's properties. *)
Lemma elem_of_originalIncludedControls cs x :
  x ∈ originalIncludedControls cs ↔
  x ∈ idsOf (ac_IncludeControls cs) ∨
  (ac_IncludeControls cs ≠ None ∧ x ∈ propNames (ac_Props cs)).
Proof.
  unfold originalIncludedControls, idsOf.
  destruct (ac_IncludeControls cs) as [ics|]; simpl.
  - rewrite elem_of_addPropNames, (elem_of_foldl_Add ControlId), elem_of_first_loop.
    set_solver.
  - set_solver.
Qed.

Lemma newIncludedControls_acc b original keys acc :
  foldl (λ acc controlId,
           if b || Has original controlId
           then append acc (mkSelectControlById controlId None)
           else acc) acc keys =
  match filter (λ k, b || Has original k = true) keys with
  | [] => acc
  | l => Some (elems acc ++ (mkSel <$> l))
  end.
Proof.
  revert acc. induction keys as [|k keys IH]; intros acc; simpl; [done|].
  rewrite IH. rewrite filter_cons.
  destruct (decide (b || Has original k = true)) as [Hk|Hk].
  - rewrite Hk. unfold append at 1 2. simpl.
    destruct (filter _ keys); simpl; [done|].
    by rewrite <- app_assoc.
  - apply not_true_is_false in Hk. by rewrite Hk.
Qed.

Lemma newIncludedControls_filter b original keys :
  newIncludedControls b original keys =
  nonempty (mkSel <$> filter (λ k, b || Has original k = true) keys).
Proof.
  unfold newIncludedControls. rewrite newIncludedControls_acc.
  by destruct (filter _ keys).
Qed.

(** The filter always returns, uses one map iteration, and its result is
    determined by the kept keys. *)
Lemma filterControlSelection_eq ρ cs includedControls n :
  filterControlSelection ρ cs includedControls n =
  Some (set_filtered cs
          (nonempty (mkSel <$> filter (λ k, keeps cs k = true) (ρ n includedControls))),
        S n).
Proof.
  unfold filterControlSelection, bind, rangeKeys, ret.
  rewrite newIncludedControls_filter. unfold keeps.
  by destruct (nonempty _).
Qed.

Lemma idsOf_nonempty (l : list string) : idsOf (nonempty (mkSel <$> l)) = l.
Proof.
  unfold idsOf. destruct l as [|x l]; [done|]. simpl. f_equal.
  rewrite <- list_fmap_compose. by rewrite list_fmap_id.
Qed.

Lemma range_ok_elem_of ρ n (s : gset string) x : range_ok ρ → x ∈ ρ n s ↔ x ∈ s.
Proof. intros Hρ. rewrite (Hρ n s). apply elem_of_elements. Qed.

Lemma range_ok_NoDup ρ n (s : gset string) : range_ok ρ → NoDup (ρ n s).
Proof. intros Hρ. rewrite (Hρ n s). apply NoDup_elements. Qed.

(** Membership in the filtered include list, for any iteration order. *)
Lemma elem_of_filtered ρ cs includedControls n cs' n' x :
  range_ok ρ →
  filterControlSelection ρ cs includedControls n = Some (cs', n') →
  x ∈ idsOf (ac_IncludeControls cs') ↔ x ∈ includedControls ∧ keeps cs x = true.
Proof.
  intros Hρ. rewrite filterControlSelection_eq. intros [= <- <-]. simpl.
  rewrite idsOf_nonempty, list_elem_of_filter, (range_ok_elem_of ρ) by done.
  tauto.
Qed.

(** The filtered include list is absent or non-empty, never an empty
    sequence. *)
Lemma filtered_never_empty ρ cs includedControls n cs' n' :
  filterControlSelection ρ cs includedControls n = Some (cs', n') →
  ac_IncludeControls cs' ≠ Some [].
Proof.
  rewrite filterControlSelection_eq. intros [= <- <-]. simpl.
  by destruct (filter _ _).
Qed.

(** Without property names in play the filter is the intersection the
    function's comment describes. *)
Lemma filtered_subset_explicit ρ cs includedControls n cs' n' :
  range_ok ρ →
  ac_IncludeAll cs = None →
  ac_Props cs = None →
  filterControlSelection ρ cs includedControls n = Some (cs', n') →
  idsOf (ac_IncludeControls cs') ⊆ idsOf (ac_IncludeControls cs).
Proof.
  intros Hρ Hall Hprops Hf x. rewrite (elem_of_filtered _ _ _ _ _ _ _ Hρ Hf).
  unfold keeps, Has. rewrite Hall. intros [_ Hk]. simpl in Hk.
  apply bool_decide_eq_true in Hk.
  apply elem_of_originalIncludedControls in Hk as [Hk|[_ Hk]]; [done|].
  rewrite Hprops in Hk. by apply elem_of_nil in Hk.
Qed.

Lemma filtered_exact_without_props ρ cs includedControls n cs' n' x :
  range_ok ρ →
  ac_Props cs = None →
  filterControlSelection ρ cs includedControls n = Some (cs', n') →
  x ∈ idsOf (ac_IncludeControls cs') ↔
  x ∈ includedControls ∧ (ac_IncludeAll cs ≠ None ∨ x ∈ idsOf (ac_IncludeControls cs)).
Proof.
  intros Hρ Hprops Hf. rewrite (elem_of_filtered _ _ _ _ _ _ _ Hρ Hf).
  unfold keeps, Has. rewrite orb_true_iff, !bool_decide_eq_true.
  rewrite elem_of_originalIncludedControls, Hprops. unfold propNames. simpl.
  set_solver.
Qed.

(** ** The concrete iteration orders are admissible *)

Lemma ascending_ok : range_ok ascending.
Proof. intros n s. unfold ascending. apply merge_sort_Permutation. Qed.

Lemma descending_ok : range_ok descending.
Proof.
  intros n s. unfold descending. rewrite reverse_Permutation.
  apply merge_sort_Permutation.
Qed.

Lemma flipping_ok : range_ok flipping.
Proof.
  intros n s. unfold flipping. case_decide; [apply ascending_ok|apply descending_ok].
Qed.

(** ** The claims about the filter *)

(** C1 (the code departs from it): a root selection without an
    include-all marker that lists only control A and has a property named
    B comes out of the application of the scope {A, B} listing B as well, a
    control that its explicit include list never held. *)
Theorem ApplyScope_adds_property_name :
  ac_IncludeAll node_A_propB = None ∧
  idsOf (ac_IncludeControls node_A_propB) = ["A"] ∧
  ("B" ∉ idsOf (ac_IncludeControls node_A_propB)) ∧
  ∃ p',
    ApplyScope ascending (scopeOf ["A"; "B"]) plan_root_A_propB 0 = Some (p', 1) ∧
    idsOf <$> (ac_IncludeControls <$>
                 elems (rc_ControlSelections (ap_ReviewedControls p')))
      = [["A"; "B"]].
Proof.
  split; [done|]. split; [done|]. split; [simpl; set_solver|].
  eexists. split; by vm_compute.
Qed.

(** C4 (the code departs from it): with explicit includes {A, C}, a
    property named B and the in-scope set {A, B}, the new include list is
    [A; B] and not [A]: B is kept although it is neither explicit nor
    covered by an include-all marker. *)
Theorem filter_explicit_AC_scope_AB :
  ac_IncludeAll node_AC_propB = None ∧
  idsOf (ac_IncludeControls node_AC_propB) = ["A"; "C"] ∧
  ∃ cs',
    filterControlSelection ascending node_AC_propB
      (includedControlsOf (scopeOf ["A"; "B"])) 0 = Some (cs', 1) ∧
    ac_IncludeControls cs' = Some [mkSel "A"; mkSel "B"].
Proof.
  split; [done|]. split; [done|]. eexists. split; by vm_compute.
Qed.

(** C10: the filter returns for every node and every in-scope set, and the
    node it returns differs from the input at most in [IncludeAll] and
    [IncludeControls]: [ExcludeControls], the property bag and the remaining
    fields are those of the input. *)
Theorem filterControlSelection_frame ρ cs includedControls n :
  ∃ cs',
    filterControlSelection ρ cs includedControls n = Some (cs', S n) ∧
    ac_ExcludeControls cs' = ac_ExcludeControls cs ∧
    ac_Props cs' = ac_Props cs ∧
    ac_Description cs' = ac_Description cs ∧
    ac_Remarks cs' = ac_Remarks cs.
Proof. rewrite filterControlSelection_eq. by eexists. Qed.

(** ** Re-applying a scope *)

Lemma option_Forall2_refl' {A} (R : A → A → Prop) (o : option A) :
  (∀ x, R x x) → option_Forall2 R o o.
Proof. intros HR. destruct o; by constructor. Qed.

Lemma Forall2_refl' {A} (R : A → A → Prop) (l : list A) :
  (∀ x, R x x) → Forall2 R l l.
Proof. intros HR. induction l; by constructor. Qed.

Lemma sel_equiv_refl c : sel_equiv c c.
Proof. repeat split; first [done | by apply option_Forall2_refl']. Qed.

Lemma rc_equiv_refl r : rc_equiv r r.
Proof.
  split; [done|]. apply option_Forall2_refl'. intros l.
  apply Forall2_refl', sel_equiv_refl.
Qed.

Lemma step_equiv_refl s : step_equiv s s.
Proof. repeat split; first [done | apply option_Forall2_refl', rc_equiv_refl]. Qed.

Lemma act_equiv_refl a : act_equiv a a.
Proof.
  repeat split; try done.
  - apply option_Forall2_refl', rc_equiv_refl.
  - apply option_Forall2_refl'. intros l. apply Forall2_refl', step_equiv_refl.
Qed.

Lemma idsOf_mkSel (ids : list string) : idsOf (Some (mkSel <$> ids)) = ids.
Proof.
  unfold idsOf. simpl. rewrite <- list_fmap_compose. by rewrite list_fmap_id.
Qed.

Lemma first_pass ρ S cs n cs' n' :
  range_ok ρ →
  filterControlSelection ρ cs S n = Some (cs', n') →
  (ac_IncludeControls cs' = None ∧ cleared cs') ∨
  (ac_IncludeControls cs' ≠ None ∧ settled S cs').
Proof.
  intros Hρ. rewrite filterControlSelection_eq. intros [= <- <-].
  set (l := filter _ _). assert (Hl : l = filter (λ k, keeps cs k = true) (ρ n S)) by done.
  destruct l as [|k l]; [left; by repeat split|]. right. split; [done|].
  split; [done|]. exists (k :: l). repeat split; try done.
  - rewrite Hl. apply NoDup_filter, range_ok_NoDup, Hρ.
  - intros x. rewrite Hl, list_elem_of_filter, (range_ok_elem_of ρ) by done. tauto.
  - simpl. intros x Hx Hp. rewrite Hl, list_elem_of_filter, (range_ok_elem_of ρ) by done.
    split; [|done].
    assert (Hk : k ∈ filter (λ k, keeps cs k = true) (ρ n S)) by (rewrite <- Hl; left).
    apply list_elem_of_filter in Hk as [Hk _].
    unfold keeps in *. apply orb_true_iff in Hk. apply orb_true_iff.
    destruct Hk as [Hk|Hk]; [by left|right].
    unfold Has in *. apply bool_decide_eq_true. apply bool_decide_eq_true in Hk.
    apply elem_of_originalIncludedControls. right. split; [|done].
    apply elem_of_originalIncludedControls in Hk as [Hk|[Hk _]]; [|done].
    intros Hnone. rewrite Hnone in Hk. by apply elem_of_nil in Hk.
Qed.

Lemma second_pass_settled ρ S cs n :
  range_ok ρ →
  settled S cs →
  ∃ cs', filterControlSelection ρ cs S n = Some (cs', Datatypes.S n) ∧
    ac_IncludeControls cs' ≠ None ∧ sel_equiv cs cs'.
Proof.
  intros Hρ (Hall & ids & Hne & Hics & Hnd & Hin & Hcl).
  rewrite filterControlSelection_eq. eexists. split; [done|].
  assert (Hperm : filter (λ k, keeps cs k = true) (ρ n S) ≡ₚ ids).
  { apply NoDup_Permutation; [apply NoDup_filter, range_ok_NoDup, Hρ|done|].
    intros x. rewrite list_elem_of_filter, (range_ok_elem_of ρ) by done.
    unfold keeps, Has. rewrite Hall. simpl.
    rewrite bool_decide_eq_true, elem_of_originalIncludedControls, Hics, idsOf_mkSel.
    split; [intros [[?|[_ ?]] ?]; auto|intros ?; auto]. }
  destruct (filter _ _) as [|k l] eqn:Hl.
  { apply Permutation_nil_l in Hperm. by subst. }
  simpl. split; [done|]. repeat split; simpl; try done.
  rewrite Hics. constructor. symmetry.
  apply (fmap_Permutation mkSel) in Hperm. exact Hperm.
Qed.

Lemma second_pass_cleared ρ S cs n :
  cleared cs →
  filterControlSelection ρ cs S n = Some (cs, Datatypes.S n).
Proof.
  intros [Hall Hics]. rewrite filterControlSelection_eq.
  assert (Hk : ∀ k, keeps cs k = false).
  { intros k. unfold keeps, Has, originalIncludedControls. rewrite Hall, Hics. simpl.
    apply bool_decide_eq_false. set_solver. }
  assert (Hf : filter (λ k, keeps cs k = true) (ρ n S) = []).
  { induction (ρ n S) as [|k l IH]; [done|].
    rewrite filter_cons, IH. case_decide as Hd; [|done]. by rewrite Hk in Hd. }
  rewrite Hf. simpl. do 2 f_equal. destruct cs; simpl in *. by subst.
Qed.

Section first_pass.
Context (ρ : RangeOracle) (S : includeControlsSet) (Hρ : range_ok ρ).

Lemma relatedControlsLoop_first sels act n arr act' n' :
  relatedControlsLoop ρ S sels act n = Some ((arr, act'), n') →
  act_Steps act' = act_Steps act ∧
  (act_RelatedControls act' = None ∨
   (act_RelatedControls act' = act_RelatedControls act ∧ Forall (settled S) arr)).
Proof.
  revert act n arr act' n'. induction sels as [|cs sels IH]; intros act n arr act' n' H.
  - injection H as <- <- <-. split; [done|]. right. by split.
  - simpl in H. bind_inv H. bind_inv H. destruct p as [rest act2].
    injection H as <- <- <-.
    apply IH in E0 as [Hsteps Hrel].
    destruct (first_pass _ _ _ _ _ _ Hρ E) as [[Hnil _]|[Hsome Hset]].
    + rewrite Hnil in Hsteps, Hrel. simpl in *. split; [done|]. left.
      by destruct Hrel as [?|[? _]].
    + destruct (ac_IncludeControls a) eqn:Ha; [|done].
      split; [done|]. destruct Hrel as [?|[? ?]]; [by left|right].
      split; [done|]. by constructor.
Qed.

Lemma applyRelatedControls_first act n act' n' :
  applyRelatedControls ρ S act n = Some (act', n') →
  rc_settled S (act_RelatedControls act') ∧ act_Steps act' = act_Steps act.
Proof.
  unfold applyRelatedControls. intros H.
  destruct (act_RelatedControls act) as [rc|] eqn:Hrc.
  - destruct (rc_ControlSelections rc) as [sels|] eqn:Hsels.
    + bind_inv H. destruct p as [arr act2]. injection H as <- <-.
      apply relatedControlsLoop_first in E as [Hsteps Hrel].
      unfold storeRelated. destruct Hrel as [Hnone|[Hsame Hall]].
      * rewrite Hnone. split; [|done]. intros ? ? Heq. by rewrite Hnone in Heq.
      * rewrite Hsame, Hrc. simpl. split; [|done].
        intros ? ? [= <-]. simpl. by intros [= <-].
    + injection H as <- <-. split; [|done]. rewrite Hrc.
      intros ? ? [= <-]. by rewrite Hsels.
  - injection H as <- <-. split; [|done]. by rewrite Hrc.
Qed.

Lemma reviewedControlsLoop_first sels act step n arr act' step' n' :
  reviewedControlsLoop ρ S sels act step n = Some ((arr, act', step'), n') →
  rc_settled S (act_RelatedControls act) →
  rc_settled S (act_RelatedControls act') ∧
  (step_ReviewedControls step' = None ∨
   (step_ReviewedControls step' = step_ReviewedControls step ∧
    Forall (settled S) arr)).
Proof.
  revert act step n arr act' step' n'.
  induction sels as [|cs sels IH]; intros act step n arr act' step' n' H Hact.
  - injection H as <- <- <- <-. split; [done|]. right. by split.
  - simpl in H. bind_inv H. bind_inv H. destruct p as [act1 step1].
    bind_inv H. destruct p as [[rest act2] step2]. injection H as <- <- <- <-.
    destruct (first_pass _ _ _ _ _ _ Hρ E) as [[Hnil _]|[Hsome Hset]].
    + rewrite Hnil in E0.
      destruct (act_RelatedControls act) as [rc|] eqn:Hrc; [|discriminate E0].
      injection E0 as <- <- <-.
      apply IH in E1 as [Hact2 Hstep2].
      * split; [done|]. left. by destruct Hstep2 as [?|[? _]].
      * simpl. by intros ? ? [= <-].
    + destruct (ac_IncludeControls a) eqn:Ha; [|done].
      injection E0 as <- <- <-.
      apply IH in E1 as [Hact2 Hstep2]; [|done]. split; [done|].
      destruct Hstep2 as [?|[? ?]]; [by left|right]. split; [done|]. by constructor.
Qed.

Lemma applyStep_first act step n act' step' n' :
  applyStep ρ S act step n = Some ((act', step'), n') →
  rc_settled S (act_RelatedControls act) →
  rc_settled S (act_RelatedControls act') ∧ step_ok S step'.
Proof.
  unfold applyStep, step_ok. intros H Hact.
  destruct (step_ReviewedControls step) as [rc|] eqn:Hrc.
  - destruct (rc_ControlSelections rc) as [sels|] eqn:Hsels.
    + bind_inv H. destruct p as [[arr act2] step2]. injection H as <- <- <-.
      apply reviewedControlsLoop_first in E as [Hact2 Hstep2]; [|done].
      split; [done|]. unfold storeReviewed. destruct Hstep2 as [Hnone|[Hsame Hall]].
      * rewrite Hnone. intros ? ? Heq. by rewrite Hnone in Heq.
      * rewrite Hsame, Hrc. simpl. intros ? ? [= <-]. simpl. by intros [= <-].
    + injection H as <- <- <-. split; [done|]. rewrite Hrc.
      intros ? ? [= <-]. by rewrite Hsels.
  - injection H as <- <- <-. split; [done|]. by rewrite Hrc.
Qed.

Lemma stepsLoop_first steps act n steps' act' n' :
  stepsLoop ρ S steps act n = Some ((steps', act'), n') →
  rc_settled S (act_RelatedControls act) →
  rc_settled S (act_RelatedControls act') ∧ Forall (step_ok S) steps'.
Proof.
  revert act n steps' act' n'.
  induction steps as [|st steps IH]; intros act n steps' act' n' H Hact.
  - injection H as <- <- <-. by split.
  - simpl in H. bind_inv H. destruct p as [act1 st1].
    bind_inv H. destruct p as [rest act2]. injection H as <- <- <-.
    apply applyStep_first in E as [Hact1 Hst1]; [|done].
    apply IH in E0 as [Hact2 Hrest]; [|done]. split; [done|]. by constructor.
Qed.

Lemma applyActivity_first act n act' n' :
  applyActivity ρ S act n = Some (act', n') → act_ok S act'.
Proof.
  unfold applyActivity. intros H. bind_inv H.
  apply applyRelatedControls_first in E as [Hrel _].
  destruct (act_Steps a) as [steps|] eqn:Hsteps.
  - bind_inv H. destruct p as [steps' act2]. injection H as <- <-.
    apply stepsLoop_first in E as [Hact2 Hall]; [|done].
    split; [done|]. simpl. by intros ? [= <-].
  - injection H as <- <-. split; [done|]. by rewrite Hsteps.
Qed.

Lemma mapM_applyActivity_first acts n acts' n' :
  mapM (applyActivity ρ S) acts n = Some (acts', n') → Forall (act_ok S) acts'.
Proof.
  revert n acts' n'. induction acts as [|a acts IH]; intros n acts' n' H.
  - injection H as <- <-. constructor.
  - simpl in H. bind_inv H. bind_inv H. injection H as <- <-.
    constructor; [by eapply applyActivity_first|by eapply IH].
Qed.

Lemma applyLocalDefinitions_first ld n ld' n' :
  applyLocalDefinitions ρ S ld n = Some (ld', n') → ld_ok S ld'.
Proof.
  unfold applyLocalDefinitions. intros H.
  destruct ld as [d|]; [|injection H as <- <-; by intros ? ? ?].
  destruct (ld_Activities d) as [acts|] eqn:Hacts.
  - bind_inv H. injection H as <- <-. intros ? ? [= <-]. simpl. intros [= <-].
    by eapply mapM_applyActivity_first.
  - injection H as <- <-. intros ? ? [= <-]. by rewrite Hacts.
Qed.

Lemma mapM_filter_first sels n arr n' :
  mapM (λ cs, filterControlSelection ρ cs S) sels n = Some (arr, n') →
  Forall (λ cs, cleared cs ∨ settled S cs) arr.
Proof.
  revert n arr n'. induction sels as [|cs sels IH]; intros n arr n' H.
  - injection H as <- <-. constructor.
  - simpl in H. bind_inv H. bind_inv H. injection H as <- <-.
    constructor; [|by eapply IH].
    destruct (first_pass _ _ _ _ _ _ Hρ E) as [[_ ?]|[_ ?]]; [by left|by right].
Qed.

Lemma applyRoot_first rc n rc' n' :
  applyRoot ρ S rc n = Some (rc', n') → root_ok S rc'.
Proof.
  unfold applyRoot. intros H.
  destruct (rc_ControlSelections rc) as [sels|] eqn:Hsels.
  - bind_inv H. injection H as <- <-. intros ? [= <-].
    by eapply mapM_filter_first.
  - injection H as <- <-. intros ?. by rewrite Hsels.
Qed.
End first_pass.

Section second_pass.
Context (ρ : RangeOracle) (S : includeControlsSet) (Hρ : range_ok ρ).

Lemma relatedControlsLoop_second sels act n :
  Forall (settled S) sels →
  ∃ arr n', relatedControlsLoop ρ S sels act n = Some ((arr, act), n') ∧
    Forall2 sel_equiv sels arr.
Proof.
  intros Hall. revert n. induction Hall as [|cs sels Hcs Hall IH]; intros n.
  - exists [], n. by split.
  - destruct (second_pass_settled ρ S cs n Hρ Hcs) as (cs' & Hf & Hsome & Heq).
    destruct (IH (Datatypes.S n)) as (arr & n' & Hloop & Harr).
    exists (cs' :: arr), n'. split; [|by constructor].
    simpl. unfold bind at 1. rewrite Hf.
    destruct (ac_IncludeControls cs'); [|done].
    unfold bind at 1. by rewrite Hloop.
Qed.

Lemma applyRelatedControls_second act n :
  rc_settled S (act_RelatedControls act) →
  ∃ act' n', applyRelatedControls ρ S act n = Some (act', n') ∧
    act_UUID act' = act_UUID act ∧ act_Title act' = act_Title act ∧
    act_Props act' = act_Props act ∧ act_Steps act' = act_Steps act ∧
    option_Forall2 rc_equiv (act_RelatedControls act) (act_RelatedControls act').
Proof.
  intros Hact. unfold applyRelatedControls.
  destruct (act_RelatedControls act) as [rc|] eqn:Hrc;
    [|exists act, n; rewrite Hrc; repeat split; constructor].
  destruct (rc_ControlSelections rc) as [sels|] eqn:Hsels;
    [|exists act, n; rewrite Hrc; repeat split; constructor; apply rc_equiv_refl].
  destruct (relatedControlsLoop_second sels act n (Hact _ _ eq_refl Hsels))
    as (arr & n' & Hloop & Harr).
  eexists _, n'. unfold bind. rewrite Hloop. split; [done|].
  unfold storeRelated. rewrite Hrc. simpl. repeat split.
  constructor. split; [done|]. simpl. rewrite Hsels. by constructor.
Qed.

Lemma reviewedControlsLoop_second sels act step n :
  Forall (settled S) sels →
  ∃ arr n', reviewedControlsLoop ρ S sels act step n = Some ((arr, act, step), n') ∧
    Forall2 sel_equiv sels arr.
Proof.
  intros Hall. revert n. induction Hall as [|cs sels Hcs Hall IH]; intros n.
  - exists [], n. by split.
  - destruct (second_pass_settled ρ S cs n Hρ Hcs) as (cs' & Hf & Hsome & Heq).
    destruct (IH (Datatypes.S n)) as (arr & n' & Hloop & Harr).
    exists (cs' :: arr), n'. split; [|by constructor].
    simpl. unfold bind at 1. rewrite Hf.
    destruct (ac_IncludeControls cs'); [|done].
    unfold bind at 1. unfold ret at 1. unfold bind at 1. by rewrite Hloop.
Qed.

Lemma applyStep_second act step n :
  step_ok S step →
  ∃ step' n', applyStep ρ S act step n = Some ((act, step'), n') ∧
    step_equiv step step'.
Proof.
  intros Hstep. unfold applyStep.
  destruct (step_ReviewedControls step) as [rc|] eqn:Hrc;
    [|exists step, n; split; [done|apply step_equiv_refl]].
  destruct (rc_ControlSelections rc) as [sels|] eqn:Hsels;
    [|exists step, n; split; [done|apply step_equiv_refl]].
  destruct (reviewedControlsLoop_second sels act step n (Hstep _ _ Hrc Hsels))
    as (arr & n' & Hloop & Harr).
  eexists _, n'. unfold bind. rewrite Hloop. split; [done|].
  unfold storeReviewed. rewrite Hrc. simpl. repeat split.
  rewrite Hrc. constructor. split; [done|]. simpl. rewrite Hsels. by constructor.
Qed.

Lemma stepsLoop_second steps act n :
  Forall (step_ok S) steps →
  ∃ steps' n', stepsLoop ρ S steps act n = Some ((steps', act), n') ∧
    Forall2 step_equiv steps steps'.
Proof.
  intros Hall. revert n. induction Hall as [|st steps Hst Hall IH]; intros n.
  - exists [], n. by split.
  - destruct (applyStep_second act st n Hst) as (st' & n1 & Hf & Heq).
    destruct (IH n1) as (rest & n' & Hloop & Hrest).
    exists (st' :: rest), n'. split; [|by constructor].
    simpl. unfold bind at 1. rewrite Hf. unfold bind at 1. by rewrite Hloop.
Qed.

Lemma applyActivity_second act n :
  act_ok S act →
  ∃ act' n', applyActivity ρ S act n = Some (act', n') ∧ act_equiv act act'.
Proof.
  intros [Hrel Hsteps]. unfold applyActivity.
  destruct (applyRelatedControls_second act n Hrel)
    as (act1 & n1 & H1 & Hu & Ht & Hp & Hs & Hrc).
  unfold bind at 1. rewrite H1.
  destruct (act_Steps act) as [steps|] eqn:Hst; rewrite Hs.
  - destruct (stepsLoop_second steps act1 n1 (Hsteps _ eq_refl))
      as (steps' & n' & Hloop & Heq).
    eexists _, n'. unfold bind. rewrite Hloop. split; [done|].
    repeat split; simpl; try done. rewrite Hst. by constructor.
  - exists act1, n1. split; [done|]. repeat split; try done.
    rewrite Hst, Hs. constructor.
Qed.

Lemma mapM_applyActivity_second acts n :
  Forall (act_ok S) acts →
  ∃ acts' n', mapM (applyActivity ρ S) acts n = Some (acts', n') ∧
    Forall2 act_equiv acts acts'.
Proof.
  intros Hall. revert n. induction Hall as [|a acts Ha Hall IH]; intros n.
  - exists [], n. by split.
  - destruct (applyActivity_second a n Ha) as (a' & n1 & Hf & Heq).
    destruct (IH n1) as (rest & n' & Hloop & Hrest).
    exists (a' :: rest), n'. split; [|by constructor].
    simpl. unfold bind at 1. rewrite Hf. unfold bind at 1. by rewrite Hloop.
Qed.

Lemma applyLocalDefinitions_second ld n :
  ld_ok S ld →
  ∃ ld' n', applyLocalDefinitions ρ S ld n = Some (ld', n') ∧
    option_Forall2 ld_equiv ld ld'.
Proof.
  intros Hld. unfold applyLocalDefinitions.
  destruct ld as [d|]; [|exists None, n; split; [done|constructor]].
  destruct (ld_Activities d) as [acts|] eqn:Hacts.
  - destruct (mapM_applyActivity_second acts n (Hld _ _ eq_refl Hacts))
      as (acts' & n' & Hm & Heq).
    eexists _, n'. unfold bind. rewrite Hm. split; [done|].
    constructor. unfold ld_equiv. rewrite Hacts. by constructor.
  - exists (Some d), n. split; [done|]. constructor. unfold ld_equiv.
    rewrite Hacts. constructor.
Qed.

Lemma mapM_filter_second sels n :
  Forall (λ cs, cleared cs ∨ settled S cs) sels →
  ∃ arr n', mapM (λ cs, filterControlSelection ρ cs S) sels n = Some (arr, n') ∧
    Forall2 sel_equiv sels arr.
Proof.
  intros Hall. revert n. induction Hall as [|cs sels Hcs Hall IH]; intros n.
  - exists [], n. by split.
  - destruct (IH (Datatypes.S n)) as (arr & n' & Hloop & Harr).
    destruct Hcs as [Hcl|Hset].
    + exists (cs :: arr), n'. split; [|constructor; [apply sel_equiv_refl|done]].
      simpl. unfold bind at 1. rewrite (second_pass_cleared ρ S cs n Hcl).
      unfold bind at 1. by rewrite Hloop.
    + destruct (second_pass_settled ρ S cs n Hρ Hset) as (cs' & Hf & _ & Heq).
      exists (cs' :: arr), n'. split; [|by constructor].
      simpl. unfold bind at 1. rewrite Hf. unfold bind at 1. by rewrite Hloop.
Qed.

Lemma applyRoot_second rc n :
  root_ok S rc →
  ∃ rc' n', applyRoot ρ S rc n = Some (rc', n') ∧ rc_equiv rc rc'.
Proof.
  intros Hrc. unfold applyRoot.
  destruct (rc_ControlSelections rc) as [sels|] eqn:Hsels;
    [|exists rc, n; split; [done|apply rc_equiv_refl]].
  destruct (mapM_filter_second sels n (Hrc _ Hsels)) as (arr & n' & Hm & Heq).
  eexists _, n'. unfold bind. rewrite Hm. split; [done|].
  split; [done|]. simpl. rewrite Hsels. by constructor.
Qed.
End second_pass.

(** C3, as stated, fails: under an admissible iteration order the second
    application of the scope {A, B} returns the root include list as
    [B; A] where the first returned [A; B]. *)
Lemma reapply_reorders :
  range_ok flipping ∧
  ∃ p1 p2 n,
    applyTwice flipping (scopeOf ["A"; "B"]) plan_root_AB 0 = Some ((p1, p2), n) ∧
    idsOf <$> (ac_IncludeControls <$> elems (rc_ControlSelections (ap_ReviewedControls p1)))
      = [["A"; "B"]] ∧
    idsOf <$> (ac_IncludeControls <$> elems (rc_ControlSelections (ap_ReviewedControls p2)))
      = [["B"; "A"]] ∧
    p2 ≠ p1.
Proof.
  split; [apply flipping_ok|].
  eexists _, _, _. split; [by vm_compute|]. split; [done|]. split; [done|].
  discriminate.
Qed.

(** C3, amended: whenever an application of a scope completes, applying
    the same scope to its result completes too, whatever the iteration
    orders, and returns that result up to the order of the identifiers
    inside each [IncludeControls] sequence; property bags, markers and the
    shape of the plan are equal. *)
Theorem ApplyScope_idempotent ρ ρ' a p n p1 n1 n' :
  range_ok ρ → range_ok ρ' →
  ApplyScope ρ a p n = Some (p1, n1) →
  ∃ p2 n2, ApplyScope ρ' a p1 n' = Some (p2, n2) ∧ plan_equiv p1 p2.
Proof.
  intros Hρ Hρ' H. unfold ApplyScope, applyControlScope in *.
  bind_inv H. bind_inv H. injection H as <- <-. simpl.
  apply applyLocalDefinitions_first in E; [|done].
  apply applyRoot_first in E0; [|done].
  destruct (applyLocalDefinitions_second ρ' _ Hρ' o n' E) as (ld' & m1 & Hld & Hldeq).
  destruct (applyRoot_second ρ' _ Hρ' r m1 E0) as (rc' & m2 & Hrc & Hrceq).
  eexists _, m2. unfold bind. rewrite Hld, Hrc. split; [done|].
  split; [done|]. by split.
Qed.

Lemma ApplyScope_idempotent_witness :
  ∃ p2 n2,
    ApplyScope descending (scopeOf ["A"; "B"]) plan_nested_applied 6 = Some (p2, n2) ∧
    plan_equiv plan_nested_applied p2.
Proof.
  apply (ApplyScope_idempotent ascending descending (scopeOf ["A"; "B"])
           plan_nested 0 plan_nested_applied 6 6).
  - apply ascending_ok.
  - apply descending_ok.
  - by vm_compute.
Defined.

(** ** When an application fails *)

Lemma filter_nil_forall {A} (P : A → Prop) `{∀ x, Decision (P x)} (l : list A) :
  (∀ x, x ∈ l → ¬ P x) → filter P l = [].
Proof.
  induction l as [|x l IH]; intros Hl; [done|].
  rewrite filter_cons. case_decide as Hx.
  - destruct (Hl x); [left|done].
  - apply IH. intros y Hy. apply Hl. by right.
Qed.

Lemma keepsNothing_filter ρ S cs n :
  range_ok ρ →
  keepsNothing S cs = true ↔ filter (λ k, keeps cs k = true) (ρ n S) = [].
Proof.
  intros Hρ. unfold keepsNothing. rewrite forallb_forall. split.
  - intros H. apply filter_nil_forall. intros k Hk Hkeep.
    apply (range_ok_elem_of ρ) in Hk; [|done].
    apply elem_of_elements, list_elem_of_In, H in Hk. by rewrite Hkeep in Hk.
  - intros H k Hk. apply list_elem_of_In, elem_of_elements in Hk.
    apply (range_ok_elem_of ρ n) in Hk; [|done].
    destruct (keeps cs k) eqn:Hkeep; [|done].
    assert (Hin : k ∈ filter (λ k, keeps cs k = true) (ρ n S))
      by by apply list_elem_of_filter.
    rewrite H in Hin. by apply elem_of_nil in Hin.
Qed.

(** One call of the filter: it returns, and the include list is absent
    exactly when the node keeps nothing of the in-scope set. *)
Lemma filterControlSelection_keepsNothing ρ S cs n :
  range_ok ρ →
  ∃ cs', filterControlSelection ρ cs S n = Some (cs', Datatypes.S n) ∧
    (ac_IncludeControls cs' = None ↔ keepsNothing S cs = true).
Proof.
  intros Hρ. rewrite filterControlSelection_eq. eexists. split; [done|].
  rewrite (keepsNothing_filter ρ S cs n Hρ). simpl.
  destruct (filter _ _); simpl; split; intros; done.
Qed.

Section failure.
Context (ρ : RangeOracle) (S : includeControlsSet) (Hρ : range_ok ρ).

Lemma relatedControlsLoop_result sels act n :
  ∃ arr act' n', relatedControlsLoop ρ S sels act n = Some ((arr, act'), n') ∧
    act_Steps act' = act_Steps act ∧
    (act_RelatedControls act' = None ↔
     act_RelatedControls act = None ∨ existsb (keepsNothing S) sels = true).
Proof.
  revert act n. induction sels as [|cs sels IH]; intros act n.
  - exists [], act, n. split; [done|]. split; [done|]. simpl. naive_solver.
  - destruct (filterControlSelection_keepsNothing ρ S cs n Hρ) as (cs' & Hf & Hnone).
    simpl. unfold bind at 1. rewrite Hf.
    destruct (ac_IncludeControls cs') as [l|] eqn:Hl.
    + destruct (IH act (Datatypes.S n)) as (arr & act' & n' & Hloop & Hsteps & Hrel).
      exists (cs' :: arr), act', n'. unfold bind at 1. rewrite Hloop.
      split; [done|]. split; [done|]. rewrite Hrel, orb_true_iff.
      assert (keepsNothing S cs ≠ true) by (intros ?%Hnone; done). naive_solver.
    + destruct (IH (set_act_Props (set_act_RelatedControls act None)
                      (appendProp (act_Props act) skipped)) (Datatypes.S n))
        as (arr & act' & n' & Hloop & Hsteps & Hrel).
      exists (cs' :: arr), act', n'. unfold bind at 1. rewrite Hloop.
      split; [done|]. split; [done|]. rewrite Hrel, orb_true_iff. simpl.
      assert (keepsNothing S cs = true) by by apply Hnone. naive_solver.
Qed.

Lemma applyRelatedControls_result act n :
  ∃ act' n', applyRelatedControls ρ S act n = Some (act', n') ∧
    act_Steps act' = act_Steps act ∧
    (act_RelatedControls act' = None ↔ relatedLost S act = true).
Proof.
  unfold applyRelatedControls, relatedLost.
  destruct (act_RelatedControls act) as [rc|] eqn:Hrc;
    [|exists act, n; rewrite Hrc; done].
  destruct (rc_ControlSelections rc) as [sels|] eqn:Hsels;
    [|exists act, n; rewrite Hrc; simpl; split; [done|split; [done|split; done]]].
  destruct (relatedControlsLoop_result sels act n)
    as (arr & act' & n' & Hloop & Hsteps & Hrel).
  eexists _, n'. unfold bind. rewrite Hloop. split; [done|].
  unfold storeRelated. rewrite Hrc in Hrel. simpl.
  destruct (act_RelatedControls act') eqn:Hrc'; simpl.
  - split; [done|]. split; [done|]. intros Hex.
    assert (Some r = None) by (apply Hrel; by right). done.
  - rewrite Hrc'. split; [done|]. split; [|done]. intros _.
    assert (Hor : Some rc = None ∨ existsb (keepsNothing S) sels = true) by by apply Hrel.
    by destruct Hor.
Qed.

Lemma reviewedControlsLoop_result sels act step n :
  match reviewedControlsLoop ρ S sels act step n with
  | None => act_RelatedControls act = None ∧ existsb (keepsNothing S) sels = true
  | Some ((_, act', _), _) =>
      (act_RelatedControls act = None → existsb (keepsNothing S) sels = false) ∧
      (act_RelatedControls act' = None ↔ act_RelatedControls act = None)
  end.
Proof.
  revert act step n. induction sels as [|cs sels IH]; intros act step n; [done|].
  destruct (filterControlSelection_keepsNothing ρ S cs n Hρ) as (cs' & Hf & Hnone).
  simpl. unfold bind at 1. rewrite Hf.
  destruct (ac_IncludeControls cs') as [l|] eqn:Hl.
  - assert (Hcs : keepsNothing S cs = false).
    { destruct (keepsNothing S cs); [|done].
      assert (Some l = None) by by apply Hnone. done. }
    rewrite Hcs. simpl. unfold bind at 1. unfold ret at 1. unfold bind at 1.
    specialize (IH act step (Datatypes.S n)).
    by destruct (reviewedControlsLoop ρ S sels act step (Datatypes.S n))
      as [[[[arr act'] step'] n']|].
  - assert (Hcs : keepsNothing S cs = true) by by apply Hnone.
    rewrite Hcs. simpl. unfold bind at 1.
    destruct (act_RelatedControls act) as [rc|] eqn:Hrc; [|done].
    unfold ret at 1. unfold bind at 1.
    match goal with |- context [reviewedControlsLoop ρ S sels ?a ?s ?m] =>
      specialize (IH a s m); destruct (reviewedControlsLoop ρ S sels a s m)
        as [[[[arr act'] step'] n']|] end.
    + simpl in IH. destruct IH as [_ IH]. split; [done|]. rewrite IH. done.
    + by destruct IH as [IH _].
Qed.

Lemma applyStep_result act step n :
  match applyStep ρ S act step n with
  | None => act_RelatedControls act = None ∧ stepLoses S step = true
  | Some ((act', _), _) =>
      (act_RelatedControls act = None → stepLoses S step = false) ∧
      (act_RelatedControls act' = None ↔ act_RelatedControls act = None)
  end.
Proof.
  unfold applyStep, stepLoses.
  destruct (step_ReviewedControls step) as [rc|]; [|done].
  destruct (rc_ControlSelections rc) as [sels|]; [|done].
  unfold bind. pose proof (reviewedControlsLoop_result sels act step n) as H.
  by destruct (reviewedControlsLoop ρ S sels act step n) as [[[[arr act'] step'] n']|].
Qed.

Lemma stepsLoop_result steps act n :
  match stepsLoop ρ S steps act n with
  | None => act_RelatedControls act = None ∧ existsb (stepLoses S) steps = true
  | Some _ => act_RelatedControls act = None → existsb (stepLoses S) steps = false
  end.
Proof.
  revert act n. induction steps as [|step steps IH]; intros act n; [done|].
  simpl. unfold bind at 1. pose proof (applyStep_result act step n) as Hstep.
  destruct (applyStep ρ S act step n) as [[[act1 step1] n1]|].
  - destruct Hstep as [Hlose Hrel]. unfold bind at 1. specialize (IH act1 n1).
    destruct (stepsLoop ρ S steps act1 n1) as [[[rest act2] n2]|].
    + intros Hnone. rewrite (Hlose Hnone). simpl. apply IH. by apply Hrel.
    + destruct IH as [Hnone ->]. split; [by apply Hrel|]. apply orb_true_r.
  - destruct Hstep as [Hnone ->]. by split.
Qed.

Lemma applyActivity_result act n :
  applyActivity ρ S act n = None ↔ activityFails S act = true.
Proof.
  unfold applyActivity, activityFails.
  destruct (applyRelatedControls_result act n) as (act1 & n1 & H1 & Hsteps & Hrel).
  unfold bind at 1. rewrite H1, Hsteps, andb_true_iff, <- Hrel.
  destruct (act_Steps act) as [steps|]; simpl; [|naive_solver].
  unfold bind. pose proof (stepsLoop_result steps act1 n1) as H.
  destruct (stepsLoop ρ S steps act1 n1) as [[[steps' act2] n2]|].
  - split; [done|]. intros [Hnone Hex]. by rewrite (H Hnone) in Hex.
  - done.
Qed.

Lemma mapM_applyActivity_result acts n :
  mapM (applyActivity ρ S) acts n = None ↔ existsb (activityFails S) acts = true.
Proof.
  revert n. induction acts as [|act acts IH]; intros n; [done|].
  simpl. unfold bind at 1. rewrite orb_true_iff, <- (applyActivity_result act n).
  destruct (applyActivity ρ S act n) as [[act' n']|]; [|naive_solver].
  unfold bind at 1. rewrite <- (IH n').
  destruct (mapM (applyActivity ρ S) acts n') as [[acts' n'']|]; naive_solver.
Qed.

Lemma applyRoot_returns rc n : is_Some (applyRoot ρ S rc n).
Proof.
  unfold applyRoot. destruct (rc_ControlSelections rc) as [sels|]; [|done].
  unfold bind.
  assert (H : ∀ n, is_Some (mapM (λ cs, filterControlSelection ρ cs S) sels n)).
  { induction sels as [|cs sels IH]; intros m; [done|].
    simpl. unfold bind at 1. rewrite filterControlSelection_eq.
    unfold bind at 1. by destruct (IH (Datatypes.S m)) as [[arr k] ->]. }
  by destruct (H n) as [[arr k] ->].
Qed.
End failure.

(** X17: an application fails exactly on the plans that hold an activity
    whose [RelatedControls] is or becomes nil and one of whose steps has a
    selection that keeps nothing; on every other plan it returns. *)
Theorem ApplyScope_fails_iff ρ a p n :
  range_ok ρ →
  ApplyScope ρ a p n = None ↔ planFails (includedControlsOf a) p = true.
Proof.
  intros Hρ. unfold ApplyScope, applyControlScope, planFails, applyLocalDefinitions.
  destruct (ap_LocalDefinitions p) as [d|]; [destruct (ld_Activities d) as [acts|]|];
    cbv [bind ret]; cbn [default].
  - rewrite <- (mapM_applyActivity_result ρ _ Hρ acts n).
    destruct (mapM _ acts n) as [[acts' n']|]; [|done].
    by destruct (applyRoot_returns ρ (includedControlsOf a) (ap_ReviewedControls p) n')
      as [[rc k] ->].
  - by destruct (applyRoot_returns ρ (includedControlsOf a) (ap_ReviewedControls p) n)
      as [[rc k] ->].
  - by destruct (applyRoot_returns ρ (includedControlsOf a) (ap_ReviewedControls p) n)
      as [[rc k] ->].
Qed.

(** ** Sparse plans *)

(** Whatever the iteration order, the step loop fails on an activity
    without [RelatedControls] as soon as one selection of a step filters to
    nothing. *)
Lemma reviewedControlsLoop_panics ρ S cs rest activity step n cs' n' :
  act_RelatedControls activity = None →
  filterControlSelection ρ cs S n = Some (cs', n') →
  ac_IncludeControls cs' = None →
  reviewedControlsLoop ρ S (cs :: rest) activity step n = None.
Proof.
  intros Hact Hf Hnil. simpl. unfold bind at 1. rewrite Hf, Hnil, Hact.
  by unfold bind, panic.
Qed.

(** Where the activity owns a [RelatedControls], a step whose single
    selection keeps nothing loses its [ReviewedControls] and gains one
    skipped property; the activity's own selections are cleared with it. *)
Lemma applyStep_skips ρ S activity related step rc cs n :
  act_RelatedControls activity = Some related →
  step_ReviewedControls step = Some rc →
  rc_ControlSelections rc = Some [cs] →
  filter (λ k, keeps cs k = true) (ρ n S) = [] →
  applyStep ρ S activity step n =
  Some ((set_act_RelatedControls activity (Some (set_rc_ControlSelections related None)),
         set_step_Props (set_step_ReviewedControls step None)
           (appendProp (step_Props step) skipped)), Datatypes.S n).
Proof.
  intros Hact Hstep Hrc Hnone. unfold applyStep. rewrite Hstep, Hrc.
  unfold bind at 1. simpl. unfold bind at 1.
  rewrite filterControlSelection_eq, Hnone. simpl. by rewrite Hact.
Qed.

(** C2 (the code departs from it): on the well-formed sparse plan whose
    single activity has no [RelatedControls] and whose single step reviews
    control example-1, applying the scope {example-2} does not return: the
    assignment to [activity.RelatedControls.ControlSelections] dereferences
    a nil pointer. *)
Theorem ApplyScope_panics_on_sparse_plan :
  ApplyScope ascending (scopeOf ["example-2"])
    (plan_of_activity activity_without_related) 0 = None.
Proof. by vm_compute. Qed.

(** C5 (the code departs from it): the selection of the step filters to
    nothing, yet no plan comes back in which the step has lost its
    [ReviewedControls] and gained one skipped property, because the
    application fails. *)
Theorem step_skip_panics_without_related :
  (∃ cs', filterControlSelection ascending (selection ["example-1"] None)
            (includedControlsOf (scopeOf ["example-2"])) 0 = Some (cs', 1) ∧
          ac_IncludeControls cs' = None) ∧
  stepsOf (plan_of_activity activity_without_related) = [step_reviewing ["example-1"]] ∧
  ApplyScope ascending (scopeOf ["example-2"])
    (plan_of_activity activity_without_related) 0 = None.
Proof.
  split; [eexists; split; by vm_compute|]. split; by vm_compute.
Qed.

(** Where the activity does own a [RelatedControls], the step is
    annotated once, and a second application leaves the count at one. *)
Example step_skipped_once_with_related :
  ∃ p1 p2 n,
    applyTwice ascending (scopeOf ["example-2"])
      (plan_of_activity activity_with_related) 0 = Some ((p1, p2), n) ∧
    (step_ReviewedControls <$> stepsOf p1) = [None] ∧
    (step_Props <$> stepsOf p1) = [Some [skipped]] ∧
    (countSkipped <$> (step_Props <$> stepsOf p2)) = [1] ∧
    p2 = p1.
Proof.
  eexists _, _, _. split; [by vm_compute|]. repeat split; by vm_compute.
Qed.

(** ** The order on strings *)

Lemma string_compare_refl (s : string) : String.compare s s = Eq.
Proof.
  pose proof (String.compare_antisym s s) as H.
  destruct (String.compare s s); simpl in H; congruence.
Qed.

Lemma string_ltb_le (a b : string) :
  String.ltb a b = true ↔ String.le a b ∧ a ≠ b.
Proof.
  unfold String.le, String.leb, String.ltb. split.
  - intros H. destruct (String.compare a b) eqn:Hc; try done.
    split; [done|]. intros ->. by rewrite string_compare_refl in Hc.
  - intros [Hle Hne]. destruct (String.compare a b) eqn:Hc; try done.
    by apply String.compare_eq_iff in Hc.
Qed.

Lemma string_ltb_false_le (a b : string) :
  String.ltb a b = false → String.le b a.
Proof.
  unfold String.le, String.leb, String.ltb. rewrite (String.compare_antisym a b).
  by destruct (String.compare b a).
Qed.

(** ** sort.Slice *)

Section sort_by_key.
Context {A : Type} (key : A → string).

Lemma insertBy_Permutation (less : A → A → bool) x l : insertBy less x l ≡ₚ x :: l.
Proof.
  induction l as [|y l IH]; simpl; [done|].
  destruct (less y x); [|done]. rewrite IH. apply Permutation_swap.
Qed.

Lemma sort_Slice_Permutation (less : A → A → bool) l : sort_Slice less l ≡ₚ l.
Proof.
  induction l as [|x l IH]; simpl; [done|].
  unfold sort_Slice in *. simpl. by rewrite insertBy_Permutation, IH.
Qed.

Lemma insertBy_sorted x l :
  StronglySorted (leKey key) l → StronglySorted (leKey key) (insertBy (lessKey key) x l).
Proof.
  induction 1 as [|y l Hl IH Hy]; simpl.
  - repeat constructor.
  - unfold lessKey at 1. destruct (String.ltb (key y) (key x)) eqn:Hyx.
    + constructor; [done|]. rewrite insertBy_Permutation. constructor; [|done].
      by apply string_ltb_le in Hyx as [? _].
    + apply string_ltb_false_le in Hyx. constructor; [by constructor|].
      constructor; [done|]. eapply Forall_impl; [exact Hy|].
      intros z Hz. unfold leKey in *. by etrans.
Qed.

Lemma sort_Slice_sorted l : StronglySorted (leKey key) (sort_Slice (lessKey key) l).
Proof.
  induction l as [|x l IH]; [constructor|]. by apply insertBy_sorted.
Qed.

Lemma sorted_distinct_strict l :
  StronglySorted (leKey key) l → NoDup (key <$> l) → StronglySorted (ltKey key) l.
Proof.
  induction 1 as [|x l Hl IH Hx]; [constructor|].
  rewrite fmap_cons, NoDup_cons. intros [Hnin Hnd]. constructor; [by apply IH|].
  apply Forall_forall. intros y Hy. apply string_ltb_le. split.
  - by eapply Forall_forall in Hx.
  - intros Heq. apply Hnin. rewrite Heq. by apply list_elem_of_fmap_2.
Qed.

(** Sorting a slice with distinct keys gives the strictly ascending
    arrangement of its elements. *)
Lemma sort_Slice_strict l :
  NoDup (key <$> l) → StronglySorted (ltKey key) (sort_Slice (lessKey key) l).
Proof.
  intros Hnd. apply sorted_distinct_strict; [apply sort_Slice_sorted|].
  by rewrite sort_Slice_Permutation.
Qed.

(** That arrangement is the only one: any other strictly ascending
    permutation of the slice is the same list. *)
Lemma sort_Slice_unique l l' :
  NoDup (key <$> l) → l' ≡ₚ l → StronglySorted (ltKey key) l' →
  l' = sort_Slice (lessKey key) l.
Proof.
  intros Hnd Hperm Hsorted.
  apply (StronglySorted_unique_strong (ltKey key)); [|done|by apply sort_Slice_strict|].
  - intros x1 x2 _ _ H1 H2. unfold ltKey in *.
    apply string_ltb_le in H1 as [H1 Hne], H2 as [H2 _].
    destruct Hne. by apply (anti_symm String.le).
  - by rewrite sort_Slice_Permutation.
Qed.
End sort_by_key.

(** ** What the traversal collects *)

Section builder.
Context (ext : Extensions) (frameworkID : string).
Context (deps : option (ApplicationDirectory * Validator * ProfileLoader)).

Lemma includeControls_visitRequirement ci st ir x :
  x ∈ includeControls (visitRequirement deps ci st ir) ↔
  (x = ir_ControlId ir ∧ x ≠ "") ∨ x ∈ includeControls st.
Proof.
  unfold visitRequirement. case_bool_decide as Hid.
  - rewrite Hid. naive_solver.
  - destruct deps as [[[a v] p]|]; [destruct (controlTitles st !! ir_ControlId ir)|];
      simpl; unfold Add; set_solver.
Qed.

Lemma includeControls_requirements ci requirements st x :
  x ∈ includeControls (foldl (visitRequirement deps ci) st requirements) ↔
  x ∈ filter (λ id, id ≠ "") (ir_ControlId <$> requirements) ∨ x ∈ includeControls st.
Proof.
  revert st. induction requirements as [|ir irs IH]; intros st; simpl.
  - set_solver.
  - rewrite IH, includeControls_visitRequirement, filter_cons.
    case_decide; set_solver.
Qed.

Lemma includeControls_visitImplementation st ci x :
  x ∈ includeControls (visitImplementation ext frameworkID deps st ci) ↔
  x ∈ requirementIDs_ci ext frameworkID ci ∨ x ∈ includeControls st.
Proof.
  unfold visitImplementation, requirementIDs_ci.
  destruct (ci_ImplementedRequirements ci); [|set_solver].
  destruct (ci_Props ci); [|set_solver].
  destruct (frameworkMatches _ _ _); [|set_solver].
  apply includeControls_requirements.
Qed.

Lemma includeControls_visitComponent st component x :
  x ∈ includeControls (visitComponent ext frameworkID deps st component) ↔
  x ∈ requirementIDs_dc ext frameworkID component ∨ x ∈ includeControls st.
Proof.
  unfold visitComponent, requirementIDs_dc.
  destruct (dc_ControlImplementations component) as [cis|]; simpl; [|set_solver].
  revert st. induction cis as [|ci cis IH]; intros st; simpl; [set_solver|].
  rewrite IH, includeControls_visitImplementation. set_solver.
Qed.

Lemma includeControls_visitDefinition st componentDef x :
  x ∈ includeControls (visitDefinition ext frameworkID deps st componentDef) ↔
  x ∈ requirementIDs_cd ext frameworkID componentDef ∨ x ∈ includeControls st.
Proof.
  unfold visitDefinition, requirementIDs_cd.
  destruct (cd_Components componentDef) as [cs|]; simpl; [|set_solver].
  revert st. induction cs as [|c cs IH]; intros st; simpl; [set_solver|].
  rewrite IH, includeControls_visitComponent. set_solver.
Qed.

Lemma includeControls_collect cds x :
  x ∈ includeControls (collect ext frameworkID deps cds) ↔
  x ∈ requirementIDs ext frameworkID cds.
Proof.
  unfold collect, requirementIDs.
  assert (H : ∀ st, x ∈ includeControls (foldl (visitDefinition ext frameworkID deps) st cds) ↔
                x ∈ cds ≫= requirementIDs_cd ext frameworkID ∨ x ∈ includeControls st).
  { induction cds as [|cd cds IH]; intros st; simpl; [set_solver|].
    rewrite IH, includeControls_visitDefinition. set_solver. }
  rewrite H. simpl. set_solver.
Qed.

(** A property of the state that every visit of a requirement preserves
    holds after the whole traversal. *)
Lemma collect_preserves (P : BuildState → Prop) cds :
  (∀ ci st ir, P st → P (visitRequirement deps ci st ir)) →
  P emptyBuildState →
  P (collect ext frameworkID deps cds).
Proof.
  intros Hstep. unfold collect. generalize emptyBuildState.
  induction cds as [|cd cds IHcds]; intros st Hst; simpl; [done|].
  apply IHcds. unfold visitDefinition.
  destruct (cd_Components cd) as [cs|]; [|done].
  revert st Hst. induction cs as [|c cs IHcs]; intros st Hst; simpl; [done|].
  apply IHcs. unfold visitComponent.
  destruct (dc_ControlImplementations c) as [cis|]; [|done].
  revert st Hst. induction cis as [|ci cis IHcis]; intros st Hst; simpl; [done|].
  apply IHcis. unfold visitImplementation.
  destruct (ci_ImplementedRequirements ci) as [irs|]; [|done].
  destruct (ci_Props ci); [|done].
  destruct (frameworkMatches _ _ _); [|done].
  revert st Hst. induction irs as [|ir irs IHirs]; intros st Hst; simpl; [done|].
  by apply IHirs, Hstep.
Qed.
End builder.

Lemma elem_of_Add (i : includeControlsSet) id x : x ∈ Add i id ↔ x = id ∨ x ∈ i.
Proof. unfold Add. set_solver. Qed.

Lemma resolved_visitRequirement d ci st ir :
  resolved d st → resolved d (visitRequirement (Some d) ci st ir).
Proof.
  intros (Hnd & Hcalls & Hinc & Htitle). unfold visitRequirement.
  case_bool_decide as Hid; [done|]. destruct d as [[a v] p].
  destruct (controlTitles st !! ir_ControlId ir) as [t|] eqn:Ht;
    unfold resolved; cbn [includeControls controlTitles titleCalls].
  - split; [done|]. split; [done|]. split; [|done].
    intros id. rewrite elem_of_Add, Hinc.
    split; [intros [->|?]; [by rewrite Ht|done]|by right].
  - assert (Hfresh : ir_ControlId ir ∉ (titleCalls st).*1).
    { rewrite Hcalls, Ht. by intros [? ?]. }
    rewrite fmap_app. cbn [fmap list_fmap fst].
    split; [|split; [|split]].
    + apply NoDup_app. split; [done|]. split; [|apply NoDup_singleton].
      intros x Hx. rewrite list_elem_of_singleton. by intros ->.
    + intros id. rewrite elem_of_app, list_elem_of_singleton, Hcalls.
      destruct (decide (id = ir_ControlId ir)) as [->|Hne].
      * rewrite lookup_insert_eq. split; [by eexists|by right].
      * rewrite lookup_insert_ne by done. naive_solver.
    + intros id. rewrite elem_of_Add, Hinc.
      destruct (decide (id = ir_ControlId ir)) as [->|Hne].
      * rewrite lookup_insert_eq. split; [by eexists|by left].
      * rewrite lookup_insert_ne by done. naive_solver.
    + intros id ci'. rewrite elem_of_app, list_elem_of_singleton.
      intros [Hin|[= -> ->]].
      * assert (id ≠ ir_ControlId ir).
        { intros ->. apply Hfresh. by apply (list_elem_of_fmap_2 fst) in Hin. }
        rewrite lookup_insert_ne by done. by apply Htitle.
      * by rewrite lookup_insert_eq.
Qed.

Lemma unresolved_visitRequirement ci st ir :
  unresolved st → unresolved (visitRequirement None ci st ir).
Proof.
  intros [Hcalls Htitle]. unfold visitRequirement.
  case_bool_decide as Hid; [done|].
  unfold unresolved; cbn [includeControls controlTitles titleCalls]. split; [done|].
  intros id. rewrite elem_of_Add.
  destruct (decide (id = ir_ControlId ir)) as [->|Hne].
  - by rewrite lookup_insert_eq.
  - rewrite lookup_insert_ne by done. naive_solver.
Qed.

Lemma resolved_collect ext frameworkID d cds :
  resolved d (collect ext frameworkID (Some d) cds).
Proof.
  apply collect_preserves.
  - intros ci st ir. apply resolved_visitRequirement.
  - unfold resolved, emptyBuildState; cbn [includeControls controlTitles titleCalls].
    split; [apply NoDup_nil_2|]. split; [|split].
    + intros id. rewrite lookup_empty. split; [by intros ?%elem_of_nil|by intros [? ?]].
    + intros id. rewrite lookup_empty. split; [by intros ?%elem_of_empty|by intros [? ?]].
    + intros id ci Hin. by apply elem_of_nil in Hin.
Qed.

Lemma unresolved_collect ext frameworkID cds :
  unresolved (collect ext frameworkID None cds).
Proof.
  apply collect_preserves.
  - intros ci st ir. apply unresolved_visitRequirement.
  - split; [done|]. intros id Hid. by apply elem_of_empty in Hid.
Qed.

(** ** The scope returned *)

Lemma NewAssessmentScopeFromCDsWithTitles_eq ρ ext frameworkId appDir validator
    profileLoader cds n :
  let st := collect ext frameworkId (dependencies appDir validator profileLoader) cds in
  NewAssessmentScopeFromCDsWithTitles ρ ext frameworkId appDir validator profileLoader
    (Some cds) n =
  Some (({| FrameworkID := frameworkId;
            IncludeControls :=
              Some (sort_Slice (lessKey ControlID)
                      (entryOf st <$> ρ n (includeControls st))) |}, None), S n).
Proof. reflexivity. Qed.

(** A call without documents passes a nil slice and is refused. *)
Lemma NewAssessmentScopeFromCDs_nil ρ ext frameworkId n :
  NewAssessmentScopeFromCDs ρ ext frameworkId None n =
  Some (({| FrameworkID := ""; IncludeControls := None |},
         Some "no component definitions found"), n).
Proof. reflexivity. Qed.

Lemma ControlID_entries st (ids : list string) : ControlID <$> (entryOf st <$> ids) = ids.
Proof. rewrite <- list_fmap_compose. apply list_fmap_id. Qed.

Lemma scope_ids_Permutation ρ n st :
  range_ok ρ →
  ControlID <$> sort_Slice (lessKey ControlID) (entryOf st <$> ρ n (includeControls st))
  ≡ₚ elements (includeControls st).
Proof.
  intros Hρ. rewrite sort_Slice_Permutation, ControlID_entries. apply Hρ.
Qed.

Lemma count_key_once {A} (f : A → string) (l : list A) x :
  NoDup (f <$> l) → x ∈ f <$> l → length (filter (λ a, f a = x) l) = 1.
Proof.
  induction l as [|a l IH]; simpl; [by intros _ ?%elem_of_nil|].
  rewrite NoDup_cons, elem_of_cons, filter_cons. intros [Hnin Hnd] Hx.
  case_decide as Ha.
  - simpl. f_equal. apply length_zero_iff_nil.
    destruct (filter _ l) as [|b l'] eqn:Hf; [done|]. exfalso. apply Hnin.
    assert (Hb : b ∈ filter (λ a, f a = x) l) by (rewrite Hf; left).
    apply list_elem_of_filter in Hb as [Hb1 Hb2]. rewrite Ha, <- Hb1.
    by apply list_elem_of_fmap_2.
  - apply IH; [done|]. by destruct Hx as [->|?].
Qed.

Example build_example :
  NewAssessmentScopeFromCDsWithTitles descending trestle "example"
    (Some testAppDir) (Some testValidator) (Some testProfileLoader)
    (Some [cd_duplicates]) 0 =
  Some (({| FrameworkID := "example";
            IncludeControls := Some
              [ {| ControlID := "control-1"; ControlTitle := "Example Control 1";
                   Rules := ["*"] |};
                {| ControlID := "control-2"; ControlTitle := "control-2";
                   Rules := ["*"] |} ] |}, None), 1).
Proof. by vm_compute. Qed.

Example build_example_calls :
  (titleCalls (collect trestle "example"
     (dependencies (Some testAppDir) (Some testValidator) (Some testProfileLoader))
     [cd_duplicates])).*1 = ["control-2"; "control-1"].
Proof. by vm_compute. Qed.

(** ** The claims about the builder *)

(** C6 (the code departs from it): a call that supplies an empty, non-nil
    sequence of documents passes the test [cds == nil] and returns an
    empty scope with a nil error instead of the EmptyInput error. *)
Theorem empty_documents_no_error :
  NewAssessmentScopeFromCDs ascending trestle "example" (Some []) 0 =
  Some (({| FrameworkID := "example"; IncludeControls := Some [] |}, None), 1).
Proof. by vm_compute. Qed.

(** C7: for every sequence of component definitions the build succeeds
    and no control identifier occurs twice in [IncludeControls]; an
    identifier named by the implemented requirements of implementations
    tagged for the requested framework, however often, has exactly one
    entry. *)
Theorem scope_controls_unique ρ ext frameworkId appDir validator profileLoader cds n :
  range_ok ρ →
  ∃ scope,
    NewAssessmentScopeFromCDsWithTitles ρ ext frameworkId appDir validator
      profileLoader (Some cds) n = Some ((scope, None), S n) ∧
    NoDup (ControlID <$> elems (IncludeControls scope)) ∧
    ∀ id, id ∈ requirementIDs ext frameworkId cds →
      length (filter (λ e, ControlID e = id) (elems (IncludeControls scope))) = 1.
Proof.
  intros Hρ. rewrite NewAssessmentScopeFromCDsWithTitles_eq. eexists. split; [done|].
  cbn [IncludeControls elems default].
  set (st := collect _ _ _ _).
  pose proof (scope_ids_Permutation ρ n st Hρ) as Hperm.
  assert (Hnd : NoDup (ControlID <$> sort_Slice (lessKey ControlID)
                         (entryOf st <$> ρ n (includeControls st)))).
  { rewrite Hperm. apply NoDup_elements. }
  split; [done|]. intros id Hid. apply count_key_once; [done|].
  rewrite Hperm. apply elem_of_elements. by apply includeControls_collect.
Qed.

Lemma scope_controls_unique_witness :
  ∃ scope,
    NewAssessmentScopeFromCDsWithTitles descending trestle "example"
      (Some testAppDir) (Some testValidator) (Some testProfileLoader)
      (Some [cd_duplicates]) 0 = Some ((scope, None), 1) ∧
    NoDup (ControlID <$> elems (IncludeControls scope)) ∧
    ∀ id, id ∈ requirementIDs trestle "example" [cd_duplicates] →
      length (filter (λ e, ControlID e = id) (elems (IncludeControls scope))) = 1.
Proof.
  apply (scope_controls_unique descending trestle "example" (Some testAppDir)
           (Some testValidator) (Some testProfileLoader) [cd_duplicates] 0).
  apply descending_ok.
Defined.

(** C8: for every sequence of component definitions and every order in
    which the set of identifiers is enumerated, the build succeeds and
    [IncludeControls] is strictly ascending by [ControlID]. *)
Theorem scope_sorted ρ ext frameworkId appDir validator profileLoader cds n :
  range_ok ρ →
  ∃ scope,
    NewAssessmentScopeFromCDsWithTitles ρ ext frameworkId appDir validator
      profileLoader (Some cds) n = Some ((scope, None), S n) ∧
    StronglySorted (ltKey ControlID) (elems (IncludeControls scope)).
Proof.
  intros Hρ. rewrite NewAssessmentScopeFromCDsWithTitles_eq. eexists. split; [done|].
  cbn [IncludeControls elems default]. apply sort_Slice_strict.
  rewrite ControlID_entries. by apply range_ok_NoDup.
Qed.

Lemma scope_sorted_witness :
  ∃ scope,
    NewAssessmentScopeFromCDsWithTitles descending trestle "example"
      (Some testAppDir) (Some testValidator) (Some testProfileLoader)
      (Some [cd_duplicates]) 0 = Some ((scope, None), 1) ∧
    StronglySorted (ltKey ControlID) (elems (IncludeControls scope)).
Proof.
  apply (scope_sorted descending trestle "example" (Some testAppDir)
           (Some testValidator) (Some testProfileLoader) [cd_duplicates] 0).
  apply descending_ok.
Defined.

(** C9: the build succeeds; [getControlTitle] is called at most once for
    any control identifier; an identifier for which the call returned an
    error has the identifier itself as the title of its entry; and when a
    collaborator is missing no call is made and every entry has its
    identifier as title. *)
Theorem title_resolution ρ ext frameworkId appDir validator profileLoader cds n :
  range_ok ρ →
  ∃ scope,
    NewAssessmentScopeFromCDsWithTitles ρ ext frameworkId appDir validator
      profileLoader (Some cds) n = Some ((scope, None), S n) ∧
    let calls := titleCalls (collect ext frameworkId
                   (dependencies appDir validator profileLoader) cds) in
    NoDup calls.*1 ∧
    (∀ id ci a v p msg,
       dependencies appDir validator profileLoader = Some (a, v, p) →
       (id, ci) ∈ calls →
       getControlTitle id ci a v p = Err msg →
       {| ControlID := id; ControlTitle := id; Rules := ["*"] |}
         ∈ elems (IncludeControls scope)) ∧
    (dependencies appDir validator profileLoader = None →
       calls = [] ∧
       ∀ e, e ∈ elems (IncludeControls scope) → ControlTitle e = ControlID e).
Proof.
  intros Hρ. rewrite NewAssessmentScopeFromCDsWithTitles_eq. eexists. split; [done|].
  cbn [IncludeControls elems default].
  destruct (dependencies appDir validator profileLoader) as [d|] eqn:Hd.
  - destruct (resolved_collect ext frameworkId d cds) as (Hnd & Hcalls & Hinc & Htitle).
    split; [done|]. split; [|done].
    intros id ci a v p msg [= ->] Hin Herr.
    rewrite sort_Slice_Permutation.
    assert (Hid : id ∈ ρ n (includeControls (collect ext frameworkId (Some (a, v, p)) cds))).
    { apply (range_ok_elem_of ρ); [done|]. apply Hinc, Hcalls.
      by apply (list_elem_of_fmap_2 fst) in Hin. }
    apply (list_elem_of_fmap_2 (entryOf (collect ext frameworkId (Some (a, v, p)) cds))) in Hid.
    unfold entryOf at 1 in Hid. unfold titleOf in Hid.
    rewrite (Htitle _ _ Hin) in Hid. unfold resolvedTitle in Hid. simpl in Hid.
    by rewrite Herr in Hid.
  - destruct (unresolved_collect ext frameworkId cds) as [Hcalls Htitle].
    rewrite Hcalls. split; [apply NoDup_nil_2|]. split; [done|].
    intros _. split; [done|]. intros e. rewrite sort_Slice_Permutation.
    intros (id & -> & Hid)%list_elem_of_fmap.
    apply (range_ok_elem_of ρ) in Hid; [|done].
    unfold entryOf, titleOf. simpl. by rewrite (Htitle _ Hid).
Qed.

Lemma title_resolution_witness :
  ∃ scope,
    NewAssessmentScopeFromCDsWithTitles descending trestle "example"
      (Some testAppDir) (Some testValidator) (Some testProfileLoader)
      (Some [cd_duplicates]) 0 = Some ((scope, None), 1) ∧
    let calls := titleCalls (collect trestle "example"
                   (dependencies (Some testAppDir) (Some testValidator)
                      (Some testProfileLoader)) [cd_duplicates]) in
    NoDup calls.*1 ∧
    (∀ id ci a v p msg,
       dependencies (Some testAppDir) (Some testValidator) (Some testProfileLoader)
         = Some (a, v, p) →
       (id, ci) ∈ calls →
       getControlTitle id ci a v p = Err msg →
       {| ControlID := id; ControlTitle := id; Rules := ["*"] |}
         ∈ elems (IncludeControls scope)) ∧
    (dependencies (Some testAppDir) (Some testValidator) (Some testProfileLoader) = None →
       calls = [] ∧
       ∀ e, e ∈ elems (IncludeControls scope) → ControlTitle e = ControlID e).
Proof.
  apply (title_resolution descending trestle "example" (Some testAppDir)
           (Some testValidator) (Some testProfileLoader) [cd_duplicates] 0).
  apply descending_ok.
Defined.

(** * Part V: further properties of the package *)

(** ** getControlTitle *)

Lemma searchControls_Some controlID controls title :
  searchControls controlID controls = Some title →
  ∃ control, control ∈ controls ∧ ID control = controlID ∧
    Title control = title ∧ title ≠ "".
Proof.
  induction controls as [|c cs IH]; simpl; [done|].
  destruct (bool_decide (ID c = controlID) && negb (bool_decide (Title c = ""))) eqn:Hc.
  - intros [= <-]. apply andb_true_iff in Hc as [Hid Ht].
    apply bool_decide_eq_true in Hid. apply negb_true_iff, bool_decide_eq_false in Ht.
    exists c. split; [left|done].
  - intros (c' & Hin & H)%IH. exists c'. split; [by right|done].
Qed.

Lemma searchControls_complete controlID controls control :
  control ∈ controls → ID control = controlID → Title control ≠ "" →
  is_Some (searchControls controlID controls).
Proof.
  intros Hin Hid Ht. induction controls as [|c cs IH]; [by apply elem_of_nil in Hin|].
  simpl. destruct (bool_decide (ID c = controlID) && negb (bool_decide (Title c = ""))) eqn:Hc;
    [by eexists|].
  apply elem_of_cons in Hin as [->|Hin]; [|by apply IH].
  rewrite bool_decide_eq_true_2 in Hc by done.
  rewrite bool_decide_eq_false_2 in Hc by done. done.
Qed.

Lemma searchGroups_Some controlID groups title :
  searchGroups controlID groups = Some title →
  ∃ group controls control, group ∈ groups ∧ Controls group = Some controls ∧
    control ∈ controls ∧ ID control = controlID ∧ Title control = title ∧ title ≠ "".
Proof.
  induction groups as [|g gs IH]; simpl; [done|].
  destruct (Controls g) as [cs|] eqn:Hg.
  - destruct (searchControls controlID cs) as [t|] eqn:Hs.
    + intros [= <-]. apply searchControls_Some in Hs as (c & Hin & H).
      exists g, cs, c. split; [left|done].
    + intros (g' & cs' & c & Hin & H)%IH. exists g', cs', c. split; [by right|done].
  - intros (g' & cs' & c & Hin & H)%IH. exists g', cs', c. split; [by right|done].
Qed.

Lemma searchGroups_complete controlID groups group controls control :
  group ∈ groups → Controls group = Some controls → control ∈ controls →
  ID control = controlID → Title control ≠ "" →
  is_Some (searchGroups controlID groups).
Proof.
  intros Hin Hg Hc Hid Ht.
  induction groups as [|g gs IH]; [by apply elem_of_nil in Hin|]. simpl.
  apply elem_of_cons in Hin as [<-|Hin].
  - rewrite Hg. by destruct (searchControls_complete controlID controls control Hc Hid Ht)
      as [t ->].
  - destruct (Controls g) as [cs|]; [|by apply IH].
    destruct (searchControls controlID cs); [by eexists|by apply IH].
Qed.

Lemma searchImports_Some controlID appDir validator profileLoader imports title :
  searchImports controlID appDir validator profileLoader imports = Some title →
  titledIn controlID title appDir validator profileLoader imports.
Proof.
  unfold titledIn. induction imports as [|imp imps IH]; simpl; [done|].
  assert (Hrest :
    searchImports controlID appDir validator profileLoader imps = Some title →
    ∃ imp0 catalog groups group controls control,
      imp0 ∈ imp :: imps ∧
      LoadCatalogSource profileLoader appDir (Href imp0) validator = Ok catalog ∧
      Groups catalog = Some groups ∧ group ∈ groups ∧
      Controls group = Some controls ∧ control ∈ controls ∧
      ID control = controlID ∧ Title control = title ∧ title ≠ "").
  { intros (i & c & gs & g & cs & ct & Hin & H)%IH.
    exists i, c, gs, g, cs, ct. split; [by right|done]. }
  destruct (LoadCatalogSource profileLoader appDir (Href imp) validator)
    as [catalog|err] eqn:Hload; [|done].
  destruct (Groups catalog) as [groups|] eqn:Hgroups; [|done].
  destruct (searchGroups controlID groups) as [t|] eqn:Hs; [|done].
  intros [= <-]. apply searchGroups_Some in Hs as (g & cs & ct & Hin & H).
  exists imp, catalog, groups, g, cs, ct. split; [left|done].
Qed.

Lemma searchImports_complete controlID title appDir validator profileLoader imports :
  titledIn controlID title appDir validator profileLoader imports →
  is_Some (searchImports controlID appDir validator profileLoader imports).
Proof.
  intros (imp & catalog & groups & g & cs & ct & Hin & Hload & Hgroups & Hg & Hcs &
          Hct & Hid & Ht & Hne).
  induction imports as [|i imps IH]; [by apply elem_of_nil in Hin|]. simpl.
  apply elem_of_cons in Hin as [<-|Hin].
  - rewrite Hload, Hgroups.
    destruct (searchGroups_complete controlID groups g cs ct Hg Hcs Hct Hid) as [t ->];
      [by rewrite Ht|by eexists].
  - destruct (LoadCatalogSource profileLoader appDir (Href i) validator) as [c|];
      [|by apply IH].
    destruct (Groups c) as [gs|]; [|by apply IH].
    destruct (searchGroups controlID gs); [by eexists|by apply IH].
Qed.

(** X1: a title that [getControlTitle] returns is never empty and is never
    invented: it is the title of a control with the requested identifier
    that sits in a top-level group of a catalog loaded from one of the
    imports of the profile named by the implementation's source. *)
Theorem getControlTitle_sound controlID ci appDir validator profileLoader title :
  getControlTitle controlID ci appDir validator profileLoader = Ok title →
  title ≠ "" ∧
  ∃ profile imports,
    LoadProfile profileLoader appDir (ci_Source ci) validator = Ok profile ∧
    Imports profile = Some imports ∧
    titledIn controlID title appDir validator profileLoader imports.
Proof.
  unfold getControlTitle.
  destruct (LoadProfile profileLoader appDir (ci_Source ci) validator)
    as [profile|err] eqn:Hp; [|done].
  destruct (Imports profile) as [imports|] eqn:Hi; [|done].
  destruct (searchImports controlID appDir validator profileLoader imports)
    as [t|] eqn:Hs; [|done].
  intros [= <-]. apply searchImports_Some in Hs. split.
  - by destruct Hs as (? & ? & ? & ? & ? & ? & ? & ? & ? & ? & ? & ? & ? & ? & ?).
  - by exists profile, imports.
Qed.

Lemma getControlTitle_sound_witness :
  "Example Control 1" ≠ "" ∧
  ∃ profile imports,
    LoadProfile patchyProfileLoader testAppDir
      (ci_Source (implementation "example" ["control-1"])) testValidator = Ok profile ∧
    Imports profile = Some imports ∧
    titledIn "control-1" "Example Control 1" testAppDir testValidator
      patchyProfileLoader imports.
Proof.
  apply (getControlTitle_sound "control-1" (implementation "example" ["control-1"])
           testAppDir testValidator patchyProfileLoader "Example Control 1").
  reflexivity.
Defined.

(** X2: [getControlTitle] succeeds exactly when the profile loads, has an
    import list, and some import whose catalog loads lists the control with
    a non-empty title in a top-level group; imports that fail to load,
    catalogs without groups, groups without controls and untitled controls
    are passed over and never abort the search. *)
Theorem getControlTitle_succeeds_iff controlID ci appDir validator profileLoader :
  (∃ title, getControlTitle controlID ci appDir validator profileLoader = Ok title) ↔
  ∃ profile imports title,
    LoadProfile profileLoader appDir (ci_Source ci) validator = Ok profile ∧
    Imports profile = Some imports ∧
    titledIn controlID title appDir validator profileLoader imports.
Proof.
  unfold getControlTitle. split.
  - intros [title H].
    destruct (LoadProfile profileLoader appDir (ci_Source ci) validator)
      as [profile|err] eqn:Hp; [|done].
    destruct (Imports profile) as [imports|] eqn:Hi; [|done].
    destruct (searchImports controlID appDir validator profileLoader imports)
      as [t|] eqn:Hs; [|done].
    exists profile, imports, t. split; [done|]. split; [done|].
    by apply searchImports_Some.
  - intros (profile & imports & title & -> & -> & Ht).
    destruct (searchImports_complete _ _ _ _ _ _ Ht) as [t ->]. by eexists.
Qed.

Lemma getControlTitle_succeeds_witness :
  ∃ title,
    getControlTitle "control-1" (implementation "example" ["control-1"])
      testAppDir testValidator patchyProfileLoader = Ok title.
Proof.
  apply (getControlTitle_succeeds_iff "control-1" (implementation "example" ["control-1"])
           testAppDir testValidator patchyProfileLoader).
  eexists _, _, "Example Control 1". split; [reflexivity|]. split; [reflexivity|].
  exists {| Href := "catalog.json" |}. eexists _, _, _, _, _.
  split; [do 2 right; left|]. split; [reflexivity|]. split; [reflexivity|].
  split; [right; left|]. split; [reflexivity|]. split; [right; left|]. done.
Defined.

(** ** The builder *)

Lemma elem_of_requirementIDs ext frameworkID cds id :
  id ∈ requirementIDs ext frameworkID cds ↔ implementedBy ext frameworkID cds id.
Proof.
  unfold requirementIDs, requirementIDs_cd, requirementIDs_dc, requirementIDs_ci,
    implementedBy, frameworkMatches.
  rewrite list_elem_of_bind. split.
  - intros (cd & Hid & Hcd). apply list_elem_of_bind in Hid as (comp & Hid & Hcomp).
    apply list_elem_of_bind in Hid as (ci & Hid & Hci).
    destruct (cd_Components cd) as [comps|] eqn:E1; [|by apply elem_of_nil in Hcomp].
    destruct (dc_ControlImplementations comp) as [cis|] eqn:E2;
      [|by apply elem_of_nil in Hci].
    destruct (ci_ImplementedRequirements ci) as [irs|] eqn:E3;
      [|by apply elem_of_nil in Hid].
    destruct (ci_Props ci) as [props|] eqn:E4; [|by apply elem_of_nil in Hid].
    destruct (GetTrestleProp ext (FrameworkProp ext) props) as [fp|] eqn:E5;
      [|by apply elem_of_nil in Hid].
    case_bool_decide as E6; [|by apply elem_of_nil in Hid].
    apply list_elem_of_filter in Hid as [Hne Hid].
    apply list_elem_of_fmap in Hid as (ir & -> & Hir).
    split; [done|]. exists cd, comps, comp, cis, ci, irs, props, fp, ir. done.
  - intros (Hne & cd & comps & comp & cis & ci & irs & props & fp & ir &
            Hcd & E1 & Hcomp & E2 & Hci & E3 & E4 & E5 & E6 & Hir & Hid).
    exists cd. split; [|done]. apply list_elem_of_bind. exists comp.
    rewrite E1. split; [|done]. apply list_elem_of_bind. exists ci.
    rewrite E2. split; [|done]. rewrite E3, E4, E5.
    rewrite bool_decide_eq_true_2 by done.
    apply list_elem_of_filter. split; [done|]. rewrite <- Hid.
    by apply list_elem_of_fmap_2.
Qed.

(** X3: the scope lists exactly the non-empty control identifiers named by
    implemented requirements of implementations that carry the framework
    property with the requested value: implementations without
    properties, without the property or tagged for another framework, and
    requirements with an empty identifier contribute nothing. *)
Theorem scope_ids_exact ρ ext frameworkId appDir validator profileLoader cds n :
  range_ok ρ →
  ∃ scope,
    NewAssessmentScopeFromCDsWithTitles ρ ext frameworkId appDir validator
      profileLoader (Some cds) n = Some ((scope, None), S n) ∧
    FrameworkID scope = frameworkId ∧
    ∀ id, id ∈ ControlID <$> elems (IncludeControls scope) ↔
          implementedBy ext frameworkId cds id.
Proof.
  intros Hρ. rewrite NewAssessmentScopeFromCDsWithTitles_eq. eexists. split; [done|].
  split; [done|]. intros id. cbn [IncludeControls elems default].
  set (st := collect _ _ _ _).
  rewrite (scope_ids_Permutation ρ n st Hρ), elem_of_elements.
  unfold st. rewrite includeControls_collect. apply elem_of_requirementIDs.
Qed.

Lemma scope_ids_exact_witness :
  ∃ scope,
    NewAssessmentScopeFromCDsWithTitles descending trestle "example"
      (Some testAppDir) (Some testValidator) (Some testProfileLoader)
      (Some [cd_duplicates]) 0 = Some ((scope, None), 1) ∧
    FrameworkID scope = "example" ∧
    ∀ id, id ∈ ControlID <$> elems (IncludeControls scope) ↔
          implementedBy trestle "example" [cd_duplicates] id.
Proof.
  apply (scope_ids_exact descending trestle "example" (Some testAppDir)
           (Some testValidator) (Some testProfileLoader) [cd_duplicates] 0).
  apply descending_ok.
Defined.

Lemma sorted_entries_order_independent ρ ρ' n n' st :
  range_ok ρ → range_ok ρ' →
  sort_Slice (lessKey ControlID) (entryOf st <$> ρ n (includeControls st)) =
  sort_Slice (lessKey ControlID) (entryOf st <$> ρ' n' (includeControls st)).
Proof.
  intros Hρ Hρ'. apply sort_Slice_unique.
  - rewrite ControlID_entries. by apply range_ok_NoDup.
  - rewrite sort_Slice_Permutation. apply fmap_Permutation.
    by rewrite (Hρ n), (Hρ' n').
  - apply sort_Slice_strict. rewrite ControlID_entries. by apply range_ok_NoDup.
Qed.

(** X4: the scope returned does not depend on the order in which the map
    of identifiers is enumerated: any two admissible iteration orders give
    the same scope and the same error. *)
Theorem scope_order_independent ρ ρ' ext frameworkId appDir validator profileLoader
    cds n n' :
  range_ok ρ → range_ok ρ' →
  scopeOfCall (NewAssessmentScopeFromCDsWithTitles ρ ext frameworkId appDir validator
                 profileLoader cds n) =
  scopeOfCall (NewAssessmentScopeFromCDsWithTitles ρ' ext frameworkId appDir validator
                 profileLoader cds n').
Proof.
  intros Hρ Hρ'. destruct cds as [cds|]; [|done].
  rewrite !NewAssessmentScopeFromCDsWithTitles_eq. unfold scopeOfCall. simpl.
  do 4 f_equal. by apply sorted_entries_order_independent.
Qed.

Lemma scope_order_independent_witness :
  scopeOfCall (NewAssessmentScopeFromCDsWithTitles ascending trestle "example"
                 (Some testAppDir) (Some testValidator) (Some testProfileLoader)
                 (Some [cd_duplicates]) 0) =
  scopeOfCall (NewAssessmentScopeFromCDsWithTitles descending trestle "example"
                 (Some testAppDir) (Some testValidator) (Some testProfileLoader)
                 (Some [cd_duplicates]) 7).
Proof.
  apply (scope_order_independent ascending descending trestle "example"
           (Some testAppDir) (Some testValidator) (Some testProfileLoader)
           (Some [cd_duplicates]) 0 7).
  - apply ascending_ok.
  - apply descending_ok.
Defined.

Lemma getControlTitle_nonempty controlID ci appDir validator profileLoader title :
  getControlTitle controlID ci appDir validator profileLoader = Ok title → title ≠ "".
Proof.
  unfold getControlTitle.
  destruct (LoadProfile profileLoader appDir (ci_Source ci) validator) as [profile|];
    [|done].
  destruct (Imports profile) as [imports|]; [|done].
  destruct (searchImports controlID appDir validator profileLoader imports)
    as [t|] eqn:Hs; [|done].
  intros [= <-]. apply searchImports_Some in Hs.
  by destruct Hs as (? & ? & ? & ? & ? & ? & ? & ? & ? & ? & ? & ? & ? & ? & ?).
Qed.

Lemma wellTitled_visitRequirement deps ci st ir :
  wellTitled st → wellTitled (visitRequirement deps ci st ir).
Proof.
  intros [Ht Hinc]. unfold visitRequirement. case_bool_decide as Hid; [done|].
  destruct deps as [[[a v] p]|];
    [destruct (controlTitles st !! ir_ControlId ir) as [t0|] eqn:Hlook|];
    unfold wellTitled; cbn [includeControls controlTitles titleCalls].
  - split; [done|]. intros id [->|Hin]%elem_of_Add; [by rewrite Hlook|by apply Hinc].
  - split.
    + intros id t. destruct (decide (id = ir_ControlId ir)) as [->|Hne].
      * rewrite lookup_insert_eq. intros [= <-].
        destruct (getControlTitle _ _ _ _ _) as [title|] eqn:Hg; [|done].
        by eapply getControlTitle_nonempty.
      * rewrite lookup_insert_ne by done. apply Ht.
    + intros id [->|Hin]%elem_of_Add.
      * rewrite lookup_insert_eq. by split; [|eexists].
      * destruct (decide (id = ir_ControlId ir)) as [->|Hne].
        -- rewrite lookup_insert_eq. by split; [|eexists].
        -- rewrite lookup_insert_ne by done. by apply Hinc.
  - split.
    + intros id t. destruct (decide (id = ir_ControlId ir)) as [->|Hne].
      * rewrite lookup_insert_eq. by intros [= <-].
      * rewrite lookup_insert_ne by done. apply Ht.
    + intros id [->|Hin]%elem_of_Add.
      * rewrite lookup_insert_eq. by split; [|eexists].
      * destruct (decide (id = ir_ControlId ir)) as [->|Hne].
        -- rewrite lookup_insert_eq. by split; [|eexists].
        -- rewrite lookup_insert_ne by done. by apply Hinc.
Qed.

Lemma wellTitled_collect ext frameworkID deps cds :
  wellTitled (collect ext frameworkID deps cds).
Proof.
  apply collect_preserves.
  - intros ci st ir. apply wellTitled_visitRequirement.
  - unfold wellTitled, emptyBuildState; cbn [includeControls controlTitles]. split.
    + intros id t. by rewrite lookup_empty.
    + intros id Hid. by apply elem_of_empty in Hid.
Qed.

(** X5: every entry of the scope is complete: its identifier is not
    empty, its title is not empty (a resolved title, or the identifier as
    the fallback), and its rule list is the default ["*"]. *)
Theorem scope_entries_complete ρ ext frameworkId appDir validator profileLoader cds n :
  range_ok ρ →
  ∃ scope,
    NewAssessmentScopeFromCDsWithTitles ρ ext frameworkId appDir validator
      profileLoader (Some cds) n = Some ((scope, None), S n) ∧
    ∀ e, e ∈ elems (IncludeControls scope) →
      ControlID e ≠ "" ∧ ControlTitle e ≠ "" ∧ Rules e = ["*"].
Proof.
  intros Hρ. rewrite NewAssessmentScopeFromCDsWithTitles_eq. eexists. split; [done|].
  cbn [IncludeControls elems default]. intros e. rewrite sort_Slice_Permutation.
  intros (id & -> & Hid)%list_elem_of_fmap.
  apply (range_ok_elem_of ρ) in Hid; [|done].
  destruct (wellTitled_collect ext frameworkId
              (dependencies appDir validator profileLoader) cds) as [Ht Hinc].
  destruct (Hinc id Hid) as [Hne [t Hlook]].
  unfold entryOf, titleOf. simpl. rewrite Hlook. simpl.
  split; [done|]. split; [by eapply Ht|done].
Qed.

Lemma scope_entries_complete_witness :
  ∃ scope,
    NewAssessmentScopeFromCDsWithTitles descending trestle "example"
      (Some testAppDir) (Some testValidator) (Some testProfileLoader)
      (Some [cd_duplicates]) 0 = Some ((scope, None), 1) ∧
    ∀ e, e ∈ elems (IncludeControls scope) →
      ControlID e ≠ "" ∧ ControlTitle e ≠ "" ∧ Rules e = ["*"].
Proof.
  apply (scope_entries_complete descending trestle "example" (Some testAppDir)
           (Some testValidator) (Some testProfileLoader) [cd_duplicates] 0).
  apply descending_ok.
Defined.

Lemma includeControls_collect_Permutation ext frameworkID deps deps' cds cds' :
  cds ≡ₚ cds' →
  includeControls (collect ext frameworkID deps cds) =
  includeControls (collect ext frameworkID deps' cds').
Proof.
  intros Hperm. apply set_eq. intros id. rewrite !includeControls_collect.
  unfold requirementIDs. by rewrite Hperm.
Qed.

Lemma sorted_ids_unique (l l' : list ControlEntry) :
  NoDup (ControlID <$> l) → ControlID <$> l ≡ₚ ControlID <$> l' →
  ControlID <$> sort_Slice (lessKey ControlID) l =
  ControlID <$> sort_Slice (lessKey ControlID) l'.
Proof.
  intros Hnd Hperm.
  assert (Hnd' : NoDup (ControlID <$> l')) by by rewrite <- Hperm.
  apply (StronglySorted_unique_strong (λ a b : string, String.ltb a b = true)).
  - intros x1 x2 _ _ H1 H2.
    apply string_ltb_le in H1 as [H1 Hne], H2 as [H2 _].
    destruct Hne. by apply (anti_symm String.le).
  - apply (StronglySorted_fmap _ (ltKey ControlID)); [done|]. by apply sort_Slice_strict.
  - apply (StronglySorted_fmap _ (ltKey ControlID)); [done|]. by apply sort_Slice_strict.
  - by rewrite !sort_Slice_Permutation.
Qed.

Lemma entryOf_unresolved st (ids : list string) :
  unresolved st → (∀ id, id ∈ ids → id ∈ includeControls st) →
  entryOf st <$> ids = (λ id, mkControlEntry id id ["*"]) <$> ids.
Proof.
  intros [_ Ht] Hids. apply list_fmap_ext. intros i id Hi.
  unfold entryOf, titleOf. rewrite (Ht id); [done|].
  apply Hids. by eapply list_elem_of_lookup_2.
Qed.

(** X6: the order of the documents does not matter for which controls are
    in scope: permuting the component definitions gives the same sequence
    of control identifiers, and when no title resolver is supplied it gives
    the same scope altogether. *)
Theorem scope_document_order ρ ρ' ext frameworkId appDir validator profileLoader
    cds cds' n n' :
  range_ok ρ → range_ok ρ' → cds ≡ₚ cds' →
  ∃ scope scope',
    NewAssessmentScopeFromCDsWithTitles ρ ext frameworkId appDir validator
      profileLoader (Some cds) n = Some ((scope, None), S n) ∧
    NewAssessmentScopeFromCDsWithTitles ρ' ext frameworkId appDir validator
      profileLoader (Some cds') n' = Some ((scope', None), S n') ∧
    ControlID <$> elems (IncludeControls scope) =
      ControlID <$> elems (IncludeControls scope') ∧
    (dependencies appDir validator profileLoader = None → scope = scope').
Proof.
  intros Hρ Hρ' Hperm. rewrite !NewAssessmentScopeFromCDsWithTitles_eq.
  eexists _, _. split; [done|]. split; [done|]. cbn [IncludeControls elems default].
  set (deps := dependencies appDir validator profileLoader).
  pose proof (includeControls_collect_Permutation ext frameworkId deps deps cds cds' Hperm)
    as Hinc.
  split.
  - apply sorted_ids_unique.
    + rewrite ControlID_entries. by apply range_ok_NoDup.
    + rewrite !ControlID_entries, Hinc. by rewrite (Hρ n), (Hρ' n').
  - intros Hdeps. rewrite Hdeps. f_equal. f_equal.
    rewrite !entryOf_unresolved;
      [|apply unresolved_collect|intros id; by apply range_ok_elem_of
       |apply unresolved_collect|intros id; by apply range_ok_elem_of].
    rewrite Hdeps in Hinc. rewrite Hinc.
    apply sort_Slice_unique.
    + rewrite <- list_fmap_compose. simpl. rewrite list_fmap_id. by apply range_ok_NoDup.
    + rewrite sort_Slice_Permutation. apply fmap_Permutation.
      by rewrite (Hρ n), (Hρ' n').
    + apply sort_Slice_strict. rewrite <- list_fmap_compose. simpl.
      rewrite list_fmap_id. by apply range_ok_NoDup.
Qed.

Lemma scope_document_order_witness :
  ∃ scope scope',
    NewAssessmentScopeFromCDsWithTitles ascending trestle "example" None None None
      (Some [cd_duplicates; cd_empty; cd_single]) 0 = Some ((scope, None), 1) ∧
    NewAssessmentScopeFromCDsWithTitles descending trestle "example" None None None
      (Some [cd_single; cd_duplicates; cd_empty]) 3 = Some ((scope', None), 4) ∧
    ControlID <$> elems (IncludeControls scope) =
      ControlID <$> elems (IncludeControls scope') ∧
    (dependencies None None None = None → scope = scope').
Proof.
  apply (scope_document_order ascending descending trestle "example" None None None
           [cd_duplicates; cd_empty; cd_single] [cd_single; cd_duplicates; cd_empty] 0 3).
  - apply ascending_ok.
  - apply descending_ok.
  - change [cd_single; cd_duplicates; cd_empty]
      with ([cd_single] ++ [cd_duplicates; cd_empty]).
    change [cd_duplicates; cd_empty; cd_single]
      with ([cd_duplicates; cd_empty] ++ [cd_single]).
    apply Permutation_app_comm.
Defined.

(** X7: with the three collaborators present, the resolver is called
    exactly once for each control of the scope, and each entry carries what
    that call produced: the title it returned, or the identifier when it
    failed. *)
Theorem titles_resolved_once ρ ext frameworkId appDir validator profileLoader cds n d :
  range_ok ρ →
  dependencies appDir validator profileLoader = Some d →
  ∃ scope,
    NewAssessmentScopeFromCDsWithTitles ρ ext frameworkId appDir validator
      profileLoader (Some cds) n = Some ((scope, None), S n) ∧
    let calls := titleCalls (collect ext frameworkId (Some d) cds) in
    calls.*1 ≡ₚ ControlID <$> elems (IncludeControls scope) ∧
    ∀ id ci, (id, ci) ∈ calls →
      {| ControlID := id; ControlTitle := resolvedTitle id ci d; Rules := ["*"] |}
        ∈ elems (IncludeControls scope).
Proof.
  intros Hρ Hd. rewrite NewAssessmentScopeFromCDsWithTitles_eq, Hd.
  eexists. split; [done|]. cbn [IncludeControls elems default].
  destruct (resolved_collect ext frameworkId d cds) as (Hnd & Hcalls & Hinc & Htitle).
  set (st := collect ext frameworkId (Some d) cds) in *.
  split.
  - rewrite (scope_ids_Permutation ρ n st Hρ).
    apply NoDup_Permutation; [done|apply NoDup_elements|].
    intros id. by rewrite elem_of_elements, Hcalls, Hinc.
  - intros id ci Hin. rewrite sort_Slice_Permutation.
    assert (Hid : id ∈ ρ n (includeControls st)).
    { apply (range_ok_elem_of ρ); [done|]. apply Hinc, Hcalls.
      by apply (list_elem_of_fmap_2 fst) in Hin. }
    apply (list_elem_of_fmap_2 (entryOf st)) in Hid.
    unfold entryOf at 1 in Hid. unfold titleOf in Hid.
    by rewrite (Htitle _ _ Hin) in Hid.
Qed.

Lemma titles_resolved_once_witness :
  ∃ scope,
    NewAssessmentScopeFromCDsWithTitles descending trestle "example"
      (Some testAppDir) (Some testValidator) (Some testProfileLoader)
      (Some [cd_duplicates]) 0 = Some ((scope, None), 1) ∧
    let calls := titleCalls (collect trestle "example"
                   (Some (testAppDir, testValidator, testProfileLoader))
                   [cd_duplicates]) in
    calls.*1 ≡ₚ ControlID <$> elems (IncludeControls scope) ∧
    ∀ id ci, (id, ci) ∈ calls →
      {| ControlID := id;
         ControlTitle := resolvedTitle id ci (testAppDir, testValidator, testProfileLoader);
         Rules := ["*"] |} ∈ elems (IncludeControls scope).
Proof.
  apply (titles_resolved_once descending trestle "example" (Some testAppDir)
           (Some testValidator) (Some testProfileLoader) [cd_duplicates] 0
           (testAppDir, testValidator, testProfileLoader)).
  - apply descending_ok.
  - reflexivity.
Defined.

(** ** The filter *)

Lemma filter_all {A} (P : A → Prop) `{∀ x, Decision (P x)} (l : list A) :
  (∀ x, x ∈ l → P x) → filter P l = l.
Proof.
  induction l as [|x l IH]; intros Hl; [done|].
  rewrite filter_cons. case_decide as Hx.
  - f_equal. apply IH. intros y Hy. apply Hl. by right.
  - destruct Hx. apply Hl. left.
Qed.

Lemma default_nonempty {A} (l : list A) : default [] (nonempty l) = l.
Proof. by destruct l. Qed.

(** X8: a node that carries an include-all marker comes out of the filter
    without the marker and listing every control of the in-scope set
    exactly once, whatever it listed before; its include list is absent
    only when the in-scope set is empty. *)
Theorem filter_include_all ρ cs includedControls n :
  range_ok ρ →
  ac_IncludeAll cs ≠ None →
  ∃ cs',
    filterControlSelection ρ cs includedControls n = Some (cs', S n) ∧
    ac_IncludeAll cs' = None ∧
    idsOf (ac_IncludeControls cs') ≡ₚ elements includedControls ∧
    (ac_IncludeControls cs' = None ↔ includedControls = ∅).
Proof.
  intros Hρ Hall. rewrite filterControlSelection_eq. eexists. split; [done|].
  split; [done|]. cbn [ac_IncludeControls set_filtered].
  assert (Hf : filter (λ k, keeps cs k = true) (ρ n includedControls)
               = ρ n includedControls).
  { apply filter_all. intros k _. unfold keeps.
    by rewrite bool_decide_eq_true_2. }
  rewrite Hf, idsOf_nonempty. split; [apply Hρ|].
  pose proof (Hρ n includedControls) as Hperm.
  destruct (ρ n includedControls) as [|k l] eqn:Hl; simpl.
  - split; [|done]. intros _. symmetry in Hperm. apply Permutation_nil_r in Hperm.
    by apply elements_empty_inv, leibniz_equiv in Hperm.
  - split; [done|]. intros ->. rewrite elements_empty in Hperm.
    by apply Permutation_nil_r in Hperm.
Qed.

Lemma filter_include_all_witness :
  ∃ cs',
    filterControlSelection descending node_all {["A"; "B"]} 0 = Some (cs', 1) ∧
    ac_IncludeAll cs' = None ∧
    idsOf (ac_IncludeControls cs') ≡ₚ elements ({["A"; "B"]} : gset string) ∧
    (ac_IncludeControls cs' = None ↔ ({["A"; "B"]} : gset string) = ∅).
Proof.
  apply (filter_include_all descending node_all {["A"; "B"]} 0).
  - apply descending_ok.
  - discriminate.
Defined.

(** X9: whatever the node held, the include list the filter leaves names
    only in-scope controls, names none twice, and carries no statement
    ids: the statement ids of the controls that are kept are dropped. *)
Theorem filter_result_shape ρ cs includedControls n :
  range_ok ρ →
  ∃ cs',
    filterControlSelection ρ cs includedControls n = Some (cs', S n) ∧
    NoDup (idsOf (ac_IncludeControls cs')) ∧
    (∀ x, x ∈ idsOf (ac_IncludeControls cs') → x ∈ includedControls) ∧
    Forall (λ c, StatementIds c = None) (default [] (ac_IncludeControls cs')).
Proof.
  intros Hρ. rewrite filterControlSelection_eq. eexists. split; [done|].
  cbn [ac_IncludeControls set_filtered]. rewrite idsOf_nonempty.
  split; [apply NoDup_filter; by apply range_ok_NoDup|]. split.
  - intros x [_ Hx]%list_elem_of_filter. by apply (range_ok_elem_of ρ) in Hx.
  - rewrite default_nonempty. apply Forall_fmap, Forall_forall. by intros id _.
Qed.

Lemma filter_result_shape_witness :
  ∃ cs',
    filterControlSelection descending node_ABC {["A"; "B"]} 0 = Some (cs', 1) ∧
    NoDup (idsOf (ac_IncludeControls cs')) ∧
    (∀ x, x ∈ idsOf (ac_IncludeControls cs') → x ∈ ({["A"; "B"]} : gset string)) ∧
    Forall (λ c, StatementIds c = None) (default [] (ac_IncludeControls cs')).
Proof.
  apply (filter_result_shape descending node_ABC {["A"; "B"]} 0).
  apply descending_ok.
Defined.

(** X10: the filter is monotone in the scope: a control that a node keeps
    under a scope is kept under every larger scope. *)
Theorem filter_monotone ρ ρ' cs S S' n n' :
  range_ok ρ → range_ok ρ' →
  S ⊆ S' →
  ∃ cs1 cs2,
    filterControlSelection ρ cs S n = Some (cs1, Datatypes.S n) ∧
    filterControlSelection ρ' cs S' n' = Some (cs2, Datatypes.S n') ∧
    ∀ x, x ∈ idsOf (ac_IncludeControls cs1) → x ∈ idsOf (ac_IncludeControls cs2).
Proof.
  intros Hρ Hρ' Hsub.
  pose proof (filterControlSelection_eq ρ cs S n) as H1.
  pose proof (filterControlSelection_eq ρ' cs S' n') as H2.
  eexists _, _. split; [exact H1|]. split; [exact H2|]. intros x.
  rewrite (elem_of_filtered _ _ _ _ _ _ _ Hρ H1), (elem_of_filtered _ _ _ _ _ _ _ Hρ' H2).
  intros [Hx Hk]. split; [by apply Hsub|done].
Qed.

Lemma filter_monotone_witness :
  ∃ cs1 cs2,
    filterControlSelection ascending node_ABC {["A"]} 0 = Some (cs1, 1) ∧
    filterControlSelection descending node_ABC {["A"; "B"]} 1 = Some (cs2, 2) ∧
    ∀ x, x ∈ idsOf (ac_IncludeControls cs1) → x ∈ idsOf (ac_IncludeControls cs2).
Proof.
  apply (filter_monotone ascending descending node_ABC {["A"]} {["A"; "B"]} 0 1).
  - apply ascending_ok.
  - apply descending_ok.
  - apply (bool_decide_unpack _). by vm_compute.
Defined.

(** X11: on a node without properties, filtering by one scope and then by
    another keeps the same controls as filtering once by the intersection
    of the two scopes. *)
Theorem filter_compose ρ ρ' ρ'' cs S S' n n' n'' :
  range_ok ρ → range_ok ρ' → range_ok ρ'' →
  ac_Props cs = None →
  ∃ cs1 cs2 cs12,
    filterControlSelection ρ cs S n = Some (cs1, Datatypes.S n) ∧
    filterControlSelection ρ' cs1 S' n' = Some (cs2, Datatypes.S n') ∧
    filterControlSelection ρ'' cs (S ∩ S') n'' = Some (cs12, Datatypes.S n'') ∧
    idsOf (ac_IncludeControls cs2) ≡ₚ idsOf (ac_IncludeControls cs12).
Proof.
  intros Hρ Hρ' Hρ'' Hprops.
  pose proof (filterControlSelection_eq ρ cs S n) as H1.
  set (cs1 := set_filtered cs _) in H1.
  pose proof (filterControlSelection_eq ρ' cs1 S' n') as H2.
  pose proof (filterControlSelection_eq ρ'' cs (S ∩ S') n'') as H12.
  eexists _, _, _. split; [exact H1|]. split; [exact H2|]. split; [exact H12|].
  cbn [ac_IncludeControls set_filtered]. rewrite !idsOf_nonempty.
  apply NoDup_Permutation;
    [apply NoDup_filter; by apply range_ok_NoDup
    |apply NoDup_filter; by apply range_ok_NoDup|].
  intros x. rewrite !list_elem_of_filter, !(range_ok_elem_of _ _ _ _) by done.
  rewrite elem_of_intersection.
  assert (Hk : keeps cs1 x = true ↔ x ∈ S ∧ keeps cs x = true).
  { unfold keeps at 1, Has. cbn [ac_IncludeAll cs1 set_filtered].
    rewrite bool_decide_eq_false_2 by (by intros []).
    cbn [orb]. rewrite bool_decide_eq_true, elem_of_originalIncludedControls.
    cbn [ac_Props ac_IncludeControls cs1 set_filtered]. rewrite Hprops, idsOf_nonempty.
    rewrite list_elem_of_filter, (range_ok_elem_of ρ) by done.
    unfold propNames. simpl. split; [|tauto].
    intros [?|[_ ?%elem_of_nil]]; tauto. }
  rewrite Hk. tauto.
Qed.

Lemma filter_compose_witness :
  ∃ cs1 cs2 cs12,
    filterControlSelection ascending node_ABC {["A"; "B"]} 0 = Some (cs1, 1) ∧
    filterControlSelection descending cs1 {["B"; "C"]} 1 = Some (cs2, 2) ∧
    filterControlSelection ascending node_ABC ({["A"; "B"]} ∩ {["B"; "C"]}) 2
      = Some (cs12, 3) ∧
    idsOf (ac_IncludeControls cs2) ≡ₚ idsOf (ac_IncludeControls cs12).
Proof.
  apply (filter_compose ascending descending ascending node_ABC
           {["A"; "B"]} {["B"; "C"]} 0 1 2).
  - apply ascending_ok.
  - apply descending_ok.
  - apply ascending_ok.
  - reflexivity.
Defined.

(** X12: the filter keeps exactly the in-scope controls that the node
    covers with an include-all marker, lists explicitly, or, when it has an
    include list, names in one of its properties. *)
Theorem filter_exact ρ cs includedControls n :
  range_ok ρ →
  ∃ cs',
    filterControlSelection ρ cs includedControls n = Some (cs', S n) ∧
    ∀ x, x ∈ idsOf (ac_IncludeControls cs') ↔ kept includedControls cs x.
Proof.
  intros Hρ. pose proof (filterControlSelection_eq ρ cs includedControls n) as H.
  eexists. split; [exact H|]. intros x.
  rewrite (elem_of_filtered _ _ _ _ _ _ _ Hρ H). unfold kept, keeps, Has.
  rewrite orb_true_iff, !bool_decide_eq_true, elem_of_originalIncludedControls. tauto.
Qed.

Lemma filter_exact_witness :
  ∃ cs',
    filterControlSelection descending node_AC_propB {["A"; "B"]} 0 = Some (cs', 1) ∧
    ∀ x, x ∈ idsOf (ac_IncludeControls cs') ↔
         kept ({["A"; "B"]} : gset string) node_AC_propB x.
Proof.
  apply (filter_exact descending node_AC_propB {["A"; "B"]} 0).
  apply descending_ok.
Defined.

(** ** The application *)

Lemma elem_of_includedControlsOf a x :
  x ∈ includedControlsOf a ↔ x ∈ ControlID <$> elems (IncludeControls a).
Proof.
  unfold includedControlsOf. rewrite (elem_of_foldl_Add ControlID). set_solver.
Qed.


Lemma ld_ok_localSelections S p cs :
  ld_ok S (ap_LocalDefinitions p) → cs ∈ localSelectionsOf p → settled S cs.
Proof.
  unfold localSelectionsOf, activitiesOf. intros Hld Hcs.
  destruct (ap_LocalDefinitions p) as [d|]; [|by apply elem_of_nil in Hcs].
  destruct (ld_Activities d) as [acts|] eqn:Hacts; [|by apply elem_of_nil in Hcs].
  specialize (Hld d acts eq_refl Hacts). simpl in Hcs.
  apply list_elem_of_bind in Hcs as (act & Hcs & Hact).
  eapply Forall_forall in Hld as [Hrel Hsteps]; [|exact Hact].
  apply elem_of_app in Hcs as [Hcs|Hcs].
  - unfold selectionsIn in Hcs.
    destruct (act_RelatedControls act) as [rc|] eqn:Hrc; [|by apply elem_of_nil in Hcs].
    destruct (rc_ControlSelections rc) as [arr|] eqn:Harr; [|by apply elem_of_nil in Hcs].
    specialize (Hrel rc arr eq_refl Harr). by eapply Forall_forall in Hrel.
  - destruct (act_Steps act) as [steps|] eqn:Hst; [|by apply elem_of_nil in Hcs].
    specialize (Hsteps steps eq_refl). simpl in Hcs.
    apply list_elem_of_bind in Hcs as (st & Hcs & Hin).
    eapply Forall_forall in Hsteps; [|exact Hin]. unfold step_ok in Hsteps.
    unfold selectionsIn in Hcs.
    destruct (step_ReviewedControls st) as [rc|] eqn:Hrc; [|by apply elem_of_nil in Hcs].
    destruct (rc_ControlSelections rc) as [arr|] eqn:Harr; [|by apply elem_of_nil in Hcs].
    specialize (Hsteps rc arr eq_refl Harr). by eapply Forall_forall in Hsteps.
Qed.



Lemma annotated_refl props : annotated props props.
Proof. exists 0. simpl. by rewrite app_nil_r. Qed.

Lemma annotated_appendProp props props' :
  annotated (appendProp props skipped) props' → annotated props props'.
Proof.
  intros [k Hk]. exists (Datatypes.S k). rewrite Hk. unfold appendProp. simpl.
  by rewrite <- app_assoc.
Qed.

Section nodes_kept.
Context (ρ : RangeOracle) (S : includeControlsSet).

Lemma relatedControlsLoop_kept sels act n arr act' n' :
  relatedControlsLoop ρ S sels act n = Some ((arr, act'), n') →
  length arr = length sels ∧
  act_UUID act' = act_UUID act ∧ act_Title act' = act_Title act ∧
  act_Steps act' = act_Steps act ∧ annotated (act_Props act) (act_Props act').
Proof.
  revert act n arr act' n'. induction sels as [|cs sels IH]; intros act n arr act' n' H.
  - injection H as <- <- <-. repeat split. apply annotated_refl.
  - simpl in H. bind_inv H. bind_inv H. destruct p as [rest act2].
    injection H as <- <- <-. apply IH in E0 as (Hlen & Hu & Ht & Hs & Hp).
    simpl. rewrite Hlen. split; [done|].
    destruct (ac_IncludeControls a); simpl in *; [done|].
    repeat split; try done. by apply annotated_appendProp.
Qed.

Lemma applyRelatedControls_kept act n act' n' :
  applyRelatedControls ρ S act n = Some (act', n') →
  act_UUID act' = act_UUID act ∧ act_Title act' = act_Title act ∧
  act_Steps act' = act_Steps act ∧ annotated (act_Props act) (act_Props act').
Proof.
  unfold applyRelatedControls. intros H.
  destruct (act_RelatedControls act) as [rc|];
    [|injection H as <- <-; repeat split; apply annotated_refl].
  destruct (rc_ControlSelections rc) as [sels|];
    [|injection H as <- <-; repeat split; apply annotated_refl].
  bind_inv H. destruct p as [arr act2]. injection H as <- <-.
  apply relatedControlsLoop_kept in E as (_ & Hu & Ht & Hs & Hp).
  unfold storeRelated. by destruct (act_RelatedControls act2).
Qed.

Lemma reviewedControlsLoop_kept sels act step n arr act' step' n' :
  reviewedControlsLoop ρ S sels act step n = Some ((arr, act', step'), n') →
  (act_UUID act' = act_UUID act ∧ act_Title act' = act_Title act ∧
   act_Steps act' = act_Steps act ∧ act_Props act' = act_Props act) ∧
  step_kept step step'.
Proof.
  revert act step n arr act' step' n'.
  induction sels as [|cs sels IH]; intros act step n arr act' step' n' H.
  - injection H as <- <- <- <-. repeat split. apply annotated_refl.
  - simpl in H. bind_inv H. bind_inv H. destruct p as [act1 step1].
    bind_inv H. destruct p as [[rest act2] step2]. injection H as <- <- <- <-.
    apply IH in E1 as ((Hu & Ht & Hs & Hp) & Hsu & Hst & Hsp).
    destruct (ac_IncludeControls a).
    + injection E0 as <- <- <-. by repeat split.
    + destruct (act_RelatedControls act) as [rc|]; [|discriminate E0].
      injection E0 as <- <- <-. simpl in *. repeat split; try done.
      by apply annotated_appendProp.
Qed.

Lemma applyStep_kept act step n act' step' n' :
  applyStep ρ S act step n = Some ((act', step'), n') →
  (act_UUID act' = act_UUID act ∧ act_Title act' = act_Title act ∧
   act_Steps act' = act_Steps act ∧ act_Props act' = act_Props act) ∧
  step_kept step step'.
Proof.
  unfold applyStep. intros H.
  destruct (step_ReviewedControls step) as [rc|];
    [|injection H as <- <- <-; repeat split; apply annotated_refl].
  destruct (rc_ControlSelections rc) as [sels|];
    [|injection H as <- <- <-; repeat split; apply annotated_refl].
  bind_inv H. destruct p as [[arr act2] step2]. injection H as <- <- <-.
  apply reviewedControlsLoop_kept in E as (Hact & Hsu & Hst & Hsp).
  split; [done|]. unfold storeReviewed, step_kept.
  by destruct (step_ReviewedControls step2).
Qed.

Lemma stepsLoop_kept steps act n steps' act' n' :
  stepsLoop ρ S steps act n = Some ((steps', act'), n') →
  (act_UUID act' = act_UUID act ∧ act_Title act' = act_Title act ∧
   act_Props act' = act_Props act) ∧
  Forall2 step_kept steps steps'.
Proof.
  revert act n steps' act' n'.
  induction steps as [|st steps IH]; intros act n steps' act' n' H.
  - injection H as <- <- <-. by repeat split.
  - simpl in H. bind_inv H. destruct p as [act1 st1].
    bind_inv H. destruct p as [rest act2]. injection H as <- <- <-.
    apply applyStep_kept in E as ((Hu & Ht & _ & Hp) & Hst).
    apply IH in E0 as ((Hu' & Ht' & Hp') & Hrest).
    split; [|by constructor]. by rewrite Hu', Ht', Hp'.
Qed.

Lemma applyActivity_kept act n act' n' :
  applyActivity ρ S act n = Some (act', n') → act_kept act act'.
Proof.
  unfold applyActivity. intros H. bind_inv H.
  apply applyRelatedControls_kept in E as (Hu & Ht & Hs & Hp).
  destruct (act_Steps a) as [steps|] eqn:Hsteps.
  - bind_inv H. destruct p as [steps' act2]. injection H as <- <-.
    apply stepsLoop_kept in E as ((Hu' & Ht' & Hp') & Hall).
    unfold act_kept. simpl. rewrite Hu', Ht', Hp', <- Hs.
    repeat split; try done. by constructor.
  - injection H as <- <-. unfold act_kept. rewrite <- Hs, Hsteps.
    repeat split; try done. constructor.
Qed.

Lemma mapM_applyActivity_kept acts n acts' n' :
  mapM (applyActivity ρ S) acts n = Some (acts', n') → Forall2 act_kept acts acts'.
Proof.
  revert n acts' n'. induction acts as [|a acts IH]; intros n acts' n' H.
  - injection H as <- <-. constructor.
  - simpl in H. bind_inv H. bind_inv H. injection H as <- <-.
    constructor; [by eapply applyActivity_kept|by eapply IH].
Qed.

Lemma mapM_filter_length sels n arr n' :
  mapM (λ cs, filterControlSelection ρ cs S) sels n = Some (arr, n') →
  length arr = length sels.
Proof.
  revert n arr n'. induction sels as [|cs sels IH]; intros n arr n' H.
  - by injection H as <- <-.
  - simpl in H. bind_inv H. bind_inv H. injection H as <- <-.
    simpl. f_equal. by eapply IH.
Qed.
End nodes_kept.

(** X14: an application that completes deletes nothing: the plan keeps
    its activities and, in each activity, its steps, one for one with
    their UUIDs and titles, and the root keeps the number of its
    selections; an activity's or step's property bag is the old one with
    skipped properties appended and nothing else. *)
Theorem ApplyScope_keeps_nodes ρ a p n p' n' :
  ApplyScope ρ a p n = Some (p', n') →
  ap_UUID p' = ap_UUID p ∧
  length (rootSelectionsOf p') = length (rootSelectionsOf p) ∧
  Forall2 act_kept (activitiesOf p) (activitiesOf p').
Proof.
  intros H. unfold ApplyScope, applyControlScope in H.
  bind_inv H. bind_inv H. injection H as <- <-.
  unfold rootSelectionsOf, activitiesOf. simpl. split; [done|]. split.
  - unfold applyRoot in E0.
    destruct (rc_ControlSelections (ap_ReviewedControls p)) as [sels|] eqn:Hsels.
    + bind_inv E0. injection E0 as <- <-. simpl.
      by eapply mapM_filter_length.
    + injection E0 as <- <-. by rewrite Hsels.
  - unfold applyLocalDefinitions in E.
    destruct (ap_LocalDefinitions p) as [d|]; [|injection E as <- <-; constructor].
    destruct (ld_Activities d) as [acts|] eqn:Hacts.
    + bind_inv E. injection E as <- <-. simpl. by eapply mapM_applyActivity_kept.
    + injection E as <- <-. rewrite Hacts. constructor.
Qed.

Lemma ApplyScope_keeps_nodes_witness :
  ap_UUID plan_nested_applied = ap_UUID plan_nested ∧
  length (rootSelectionsOf plan_nested_applied) = length (rootSelectionsOf plan_nested) ∧
  Forall2 act_kept (activitiesOf plan_nested) (activitiesOf plan_nested_applied).
Proof.
  apply (ApplyScope_keeps_nodes ascending (scopeOf ["A"; "B"]) plan_nested 0
           plan_nested_applied 6).
  by vm_compute.
Defined.

Lemma ApplyScope_fails_iff_witness :
  ApplyScope ascending (scopeOf ["example-2"])
    (plan_of_activity activity_without_related) 0 = None ↔
  planFails (includedControlsOf (scopeOf ["example-2"]))
    (plan_of_activity activity_without_related) = true.
Proof.
  apply (ApplyScope_fails_iff ascending (scopeOf ["example-2"])
           (plan_of_activity activity_without_related) 0).
  apply ascending_ok.
Defined.

Section skip_count.
Context (ρ : RangeOracle) (S : includeControlsSet) (Hρ : range_ok ρ).

Lemma relatedControlsLoop_count sels act n :
  ∃ arr act',
    relatedControlsLoop ρ S sels act n = Some ((arr, act'), n + length sels) ∧
    act_Props act' =
      match length (filter (λ cs, keepsNothing S cs = true) sels) with
      | 0 => act_Props act
      | k => Some (default [] (act_Props act) ++ replicate k skipped)
      end ∧
    act_RelatedControls act' =
      match length (filter (λ cs, keepsNothing S cs = true) sels) with
      | 0 => act_RelatedControls act
      | _ => None
      end.
Proof.
  revert act n. induction sels as [|cs sels IH]; intros act n.
  - exists [], act. simpl. by rewrite Nat.add_0_r.
  - destruct (filterControlSelection_keepsNothing ρ S cs n Hρ) as (cs' & Hf & Hnone).
    simpl. unfold bind at 1. rewrite Hf. rewrite filter_cons.
    destruct (ac_IncludeControls cs') as [l|] eqn:Hl.
    + destruct (IH act (Datatypes.S n)) as (arr & act' & Hloop & Hp & Hr).
      exists (cs' :: arr), act'. unfold bind at 1. rewrite Hloop.
      replace (n + Datatypes.S (length sels)) with (Datatypes.S n + length sels) by lia.
      split; [done|].
      case_decide as Hk; [|done].
      assert (Some l = None) by by apply Hnone. done.
    + destruct (IH (set_act_Props (set_act_RelatedControls act None)
                      (appendProp (act_Props act) skipped)) (Datatypes.S n))
        as (arr & act' & Hloop & Hp & Hr).
      exists (cs' :: arr), act'. unfold bind at 1. rewrite Hloop.
      replace (n + Datatypes.S (length sels)) with (Datatypes.S n + length sels) by lia.
      split; [done|].
      case_decide as Hk; [|destruct Hk; by apply Hnone].
      simpl in *. rewrite Hp, Hr.
      destruct (length (filter _ sels)); simpl; [done|].
      split; [|done]. f_equal. by rewrite <- app_assoc.
Qed.
End skip_count.

(** X15: an activity whose [RelatedControls] holds selections is tagged
    once for each of its selections that keeps nothing: with none, its
    property bag and its [RelatedControls] stay; with k of them, its
    [RelatedControls] is cleared and k skipped properties are appended to
    its bag, so several empty selections leave several skipped
    properties.  The filter is run on every selection either way. *)
Theorem activity_skip_count ρ S act rc sels n :
  range_ok ρ →
  act_RelatedControls act = Some rc →
  rc_ControlSelections rc = Some sels →
  ∃ act',
    applyRelatedControls ρ S act n = Some (act', n + length sels) ∧
    let k := length (filter (λ cs, keepsNothing S cs = true) sels) in
    (k = 0 → act_Props act' = act_Props act ∧ act_RelatedControls act' ≠ None) ∧
    (0 < k → act_RelatedControls act' = None ∧
             act_Props act' = Some (default [] (act_Props act) ++ replicate k skipped)).
Proof.
  intros Hρ Hrc Hsels. unfold applyRelatedControls. rewrite Hrc, Hsels.
  destruct (relatedControlsLoop_count ρ S Hρ sels act n) as (arr & act' & Hloop & Hp & Hr).
  unfold bind. rewrite Hloop. eexists. split; [done|].
  unfold storeRelated. cbn zeta.
  destruct (length (filter _ sels)) as [|k].
  - split; [|lia]. intros _. rewrite Hr, Hrc. simpl. by rewrite Hp.
  - split; [lia|]. intros _. by rewrite Hr.
Qed.

Lemma activity_skip_count_witness :
  ∃ act',
    applyRelatedControls descending {["A"]} activity_two_empty 0 = Some (act', 0 + 3) ∧
    let k := length (filter (λ cs, keepsNothing ({["A"]} : gset string) cs = true)
                       [selection ["B"] None; selection ["A"] None; selection ["C"] None]) in
    (k = 0 → act_Props act' = act_Props activity_two_empty ∧
             act_RelatedControls act' ≠ None) ∧
    (0 < k → act_RelatedControls act' = None ∧
             act_Props act' =
               Some (default [] (act_Props activity_two_empty) ++ replicate k skipped)).
Proof.
  apply (activity_skip_count descending {["A"]} activity_two_empty
           {| rc_ControlSelections :=
                Some [selection ["B"] None; selection ["A"] None; selection ["C"] None];
              rc_Description := "" |}
           [selection ["B"] None; selection ["A"] None; selection ["C"] None] 0).
  - apply descending_ok.
  - reflexivity.
  - reflexivity.
Defined.




(** ** The scan command *)

Lemma elems_appendAll {A} (s : slice A) (xs : list A) :
  elems (appendAll s xs) = elems s ++ xs.
Proof. destruct xs; simpl; [by rewrite app_nil_r|done]. Qed.

Lemma elems_gatherComponents components all :
  elems (foldl gatherComponent all components) =
  elems all ++ (component ← components; default [] (dc_ControlImplementations component)).
Proof.
  revert all. induction components as [|c cs IH]; intros all; simpl.
  - by rewrite app_nil_r.
  - rewrite IH. unfold gatherComponent.
    destruct (dc_ControlImplementations c); simpl; [|done].
    by rewrite elems_appendAll, <- app_assoc.
Qed.

Lemma gatherImplementations_panicked cds :
  foldl (λ acc compDef, acc ≫= λ all, gatherDefinition all compDef) None cds = None.
Proof. by induction cds. Qed.

Lemma gatherComponents_never_empty components (acc : slice ControlImplementationSet) :
  acc = None ∨ acc ≠ Some [] →
  foldl gatherComponent acc components = None ∨
  foldl gatherComponent acc components ≠ Some [].
Proof.
  revert acc. induction components as [|c cs IH]; intros acc Hacc; simpl; [done|].
  apply IH. unfold gatherComponent.
  destruct (dc_ControlImplementations c) as [[|ci cis]|]; simpl; try done.
  right. intros [= H]. by destruct (elems acc).
Qed.

Lemma gatherComponents_nil components :
  (component ← components; default [] (dc_ControlImplementations component)) = [] →
  foldl gatherComponent None components = None.
Proof.
  induction components as [|c cs IH]; simpl; [done|].
  intros [Hc Hcs]%app_eq_nil. unfold gatherComponent at 2.
  destruct (dc_ControlImplementations c) as [cis|]; simpl in *; [|by apply IH].
  subst. by apply IH.
Qed.

(** X18: the loop of the scan command that gathers control
    implementations panics exactly when some component definition has no
    components (a nil [Components]); otherwise it returns the
    implementations of all components in document order, skipping the
    components without implementations, and the slice stays nil when there
    is none. *)
Theorem gatherImplementations_spec cds :
  (gatherImplementations cds = None ↔ ∃ cd, cd ∈ cds ∧ cd_Components cd = None) ∧
  (∀ all, gatherImplementations cds = Some all →
     elems all = implementationsOf cds ∧
     (all = None ↔ implementationsOf cds = [])).
Proof.
  unfold implementationsOf.
  assert (Hgen : ∀ (acc : slice ControlImplementationSet),
    (acc = None ∨ acc ≠ Some []) →
    match foldl (λ acc compDef, acc ≫= λ all, gatherDefinition all compDef)
                (Some acc) cds with
    | None => ∃ cd, cd ∈ cds ∧ cd_Components cd = None
    | Some all =>
        (∀ cd, cd ∈ cds → cd_Components cd ≠ None) ∧
        elems all = elems acc ++ (cd ← cds; component ← default [] (cd_Components cd);
                                  default [] (dc_ControlImplementations component)) ∧
        (all = None ↔ acc = None ∧
           (cd ← cds; component ← default [] (cd_Components cd);
            default [] (dc_ControlImplementations component)) = [])
    end).
  { induction cds as [|cd cds IH]; intros acc Hacc; simpl.
    - split; [by intros ? ?%elem_of_nil|]. rewrite app_nil_r. split; [done|]. tauto.
    - unfold gatherDefinition at 2. destruct (cd_Components cd) as [comps|] eqn:Hc; simpl.
      + pose proof (gatherComponents_never_empty comps acc Hacc) as Hacc'.
        specialize (IH _ Hacc').
        destruct (foldl _ (Some (foldl gatherComponent acc comps)) cds) as [all|].
        * destruct IH as (Hall & Hel & Hnil). split.
          { intros cd' [->|?]%elem_of_cons; [by rewrite Hc|by apply Hall]. }
          rewrite Hel, elems_gatherComponents, <- app_assoc. split; [done|].
          rewrite Hnil. split.
          -- intros [Hf Hrest].
             assert (Hz : elems (foldl gatherComponent acc comps) = []) by by rewrite Hf.
             rewrite elems_gatherComponents in Hz. apply app_eq_nil in Hz as [Ha Hcs].
             split; [|rewrite Hcs; exact Hrest].
             destruct Hacc as [->|Hne]; [done|]. destruct acc as [[|? ?]|]; done.
          -- intros [-> Happ]. apply app_eq_nil in Happ as [Hcs Hrest].
             split; [|done]. by apply gatherComponents_nil.
        * destruct IH as (cd' & Hin & Hnone). exists cd'. split; [by right|done].
      + rewrite gatherImplementations_panicked. exists cd. split; [left|done]. }
  specialize (Hgen None (or_introl eq_refl)).
  change (foldl _ (Some None) cds) with (gatherImplementations cds) in Hgen.
  destruct (gatherImplementations cds) as [all|].
  - destruct Hgen as (Hall & Hel & Hnil). split.
    + split; [done|]. intros (cd & Hin & Hnone). by destruct (Hall cd Hin).
    + intros all' [= <-]. split; [done|]. rewrite Hnil. tauto.
  - split; [done|]. by intros all [=].
Qed.

Lemma gatherImplementations_spec_witness :
  (gatherImplementations [cd_duplicates; cd_empty] = None ↔
   ∃ cd, cd ∈ [cd_duplicates; cd_empty] ∧ cd_Components cd = None) ∧
  (∀ all, gatherImplementations [cd_duplicates; cd_empty] = Some all →
     elems all = implementationsOf [cd_duplicates; cd_empty] ∧
     (all = None ↔ implementationsOf [cd_duplicates; cd_empty] = [])).
Proof. apply (gatherImplementations_spec [cd_duplicates; cd_empty]). Defined.

(** ** Steps *)

Section step_count.
Context (ρ : RangeOracle) (S : includeControlsSet) (Hρ : range_ok ρ).

Lemma reviewedControlsLoop_count sels act related step n :
  act_RelatedControls act = Some related →
  ∃ arr act' step',
    reviewedControlsLoop ρ S sels act step n
      = Some ((arr, act', step'), n + length sels) ∧
    step_UUID step' = step_UUID step ∧ step_Title step' = step_Title step ∧
    match length (filter (λ cs, keepsNothing S cs = true) sels) with
    | 0 => act' = act ∧ step_Props step' = step_Props step ∧
           step_ReviewedControls step' = step_ReviewedControls step
    | k => act' = set_act_RelatedControls act
                    (Some (set_rc_ControlSelections related None)) ∧
           step_Props step' = Some (default [] (step_Props step) ++ replicate k skipped) ∧
           step_ReviewedControls step' = None
    end.
Proof.
  revert act related step n.
  induction sels as [|cs sels IH]; intros act related step n Hact.
  - exists [], act, step. simpl. by rewrite Nat.add_0_r.
  - destruct (filterControlSelection_keepsNothing ρ S cs n Hρ) as (cs' & Hf & Hnone).
    simpl. unfold bind at 1. rewrite Hf, filter_cons.
    replace (n + Datatypes.S (length sels)) with (Datatypes.S n + length sels) by lia.
    destruct (ac_IncludeControls cs') as [l|] eqn:Hl.
    + destruct (IH act related step (Datatypes.S n) Hact)
        as (arr & act' & step' & Hloop & Hu & Ht & Hk).
      exists (cs' :: arr), act', step'. unfold bind at 1. unfold ret at 1.
      unfold bind at 1. rewrite Hloop. split; [done|]. split; [done|]. split; [done|].
      case_decide as Hd; [|done].
      assert (Some l = None) by by apply Hnone. done.
    + rewrite Hact. unfold bind at 1. unfold ret at 1.
      match goal with |- context [reviewedControlsLoop ρ S sels ?a ?s] =>
        destruct (IH a (set_rc_ControlSelections related None) s (Datatypes.S n) eq_refl)
          as (arr & act' & step' & Hloop & Hu & Ht & Hk) end.
      exists (cs' :: arr), act', step'. unfold bind at 1. rewrite Hloop.
      split; [done|]. split; [done|]. split; [done|].
      case_decide as Hd; [|destruct Hd; by apply Hnone].
      simpl in *.
      destruct (length (filter _ sels)); simpl.
      * by destruct Hk as (-> & -> & ->).
      * destruct Hk as (-> & -> & ->). split; [done|]. split; [|done].
        f_equal. by rewrite <- app_assoc.
Qed.
End step_count.

(** X19: in an activity that owns a [RelatedControls], a step whose
    [ReviewedControls] holds selections is tagged once for each of its
    selections that keeps nothing: with none, step and activity stay as
    they are (the selections apart); with k of them, the step loses its
    [ReviewedControls], gains k skipped properties, and the activity's own
    [RelatedControls.ControlSelections] is set to nil as well. *)
Theorem step_skip_effect ρ S act related step rc sels n :
  range_ok ρ →
  act_RelatedControls act = Some related →
  step_ReviewedControls step = Some rc →
  rc_ControlSelections rc = Some sels →
  ∃ act' step',
    applyStep ρ S act step n = Some ((act', step'), n + length sels) ∧
    step_UUID step' = step_UUID step ∧ step_Title step' = step_Title step ∧
    let k := length (filter (λ cs, keepsNothing S cs = true) sels) in
    (k = 0 → act' = act ∧ step_Props step' = step_Props step ∧
             step_ReviewedControls step' ≠ None) ∧
    (0 < k → step_ReviewedControls step' = None ∧
             step_Props step' = Some (default [] (step_Props step) ++ replicate k skipped) ∧
             act_RelatedControls act' = Some (set_rc_ControlSelections related None)).
Proof.
  intros Hρ Hact Hstep Hsels. unfold applyStep. rewrite Hstep, Hsels.
  destruct (reviewedControlsLoop_count ρ S Hρ sels act related step n Hact)
    as (arr & act' & step' & Hloop & Hu & Ht & Hk).
  unfold bind. rewrite Hloop. eexists _, _. split; [done|].
  unfold storeReviewed. cbn zeta.
  destruct (length (filter _ sels)) as [|k].
  - destruct Hk as (-> & Hp & Hr). rewrite Hr, Hstep. simpl.
    split; [done|]. split; [done|]. split; [done|lia].
  - destruct Hk as (-> & Hp & Hr). rewrite Hr.
    split; [done|]. split; [done|]. split; [lia|]. done.
Qed.

Lemma step_skip_effect_witness :
  ∃ act' step',
    applyStep descending {["A"]} activity_keeping_A step_two_empty 0
      = Some ((act', step'), 0 + 3) ∧
    step_UUID step' = step_UUID step_two_empty ∧
    step_Title step' = step_Title step_two_empty ∧
    let k := length (filter (λ cs, keepsNothing ({["A"]} : gset string) cs = true)
                       [selection ["B"] None; selection ["A"] None; selection ["C"] None]) in
    (k = 0 → act' = activity_keeping_A ∧
             step_Props step' = step_Props step_two_empty ∧
             step_ReviewedControls step' ≠ None) ∧
    (0 < k → step_ReviewedControls step' = None ∧
             step_Props step' =
               Some (default [] (step_Props step_two_empty) ++ replicate k skipped) ∧
             act_RelatedControls act' =
               Some (set_rc_ControlSelections
                       {| rc_ControlSelections := Some [selection ["A"] None];
                          rc_Description := "kept" |} None)).
Proof.
  apply (step_skip_effect descending {["A"]} activity_keeping_A
           {| rc_ControlSelections := Some [selection ["A"] None];
              rc_Description := "kept" |}
           step_two_empty
           {| rc_ControlSelections :=
                Some [selection ["B"] None; selection ["A"] None; selection ["C"] None];
              rc_Description := "" |}
           [selection ["B"] None; selection ["A"] None; selection ["C"] None] 0).
  - apply descending_ok.
  - reflexivity.
  - reflexivity.
  - reflexivity.
Defined.

(** X20: a scope without controls empties the plan: when the application
    completes, every root selection is left with an absent include list
    and no selection is left attached to an activity or a step. *)
Theorem ApplyScope_empty_scope ρ a p n p' n' :
  range_ok ρ →
  elems (IncludeControls a) = [] →
  ApplyScope ρ a p n = Some (p', n') →
  Forall (λ cs, ac_IncludeAll cs = None ∧ ac_IncludeControls cs = None)
         (rootSelectionsOf p') ∧
  localSelectionsOf p' = [].
Proof.
  intros Hρ Hempty H. unfold ApplyScope, applyControlScope in H.
  bind_inv H. bind_inv H. injection H as <- <-.
  apply applyLocalDefinitions_first in E; [|done].
  apply applyRoot_first in E0; [|done].
  assert (Hno : ∀ cs, ¬ settled (includedControlsOf a) cs).
  { intros cs (_ & ids & Hne & _ & _ & Hin & _). destruct ids as [|x ids]; [done|].
    specialize (Hin x (list_elem_of_here _ _)).
    apply elem_of_includedControlsOf in Hin. rewrite Hempty in Hin.
    by apply elem_of_nil in Hin. }
  split.
  - unfold rootSelectionsOf. simpl.
    destruct (rc_ControlSelections r) as [arr|] eqn:Harr; [|constructor].
    specialize (E0 arr Harr). simpl. eapply Forall_impl; [exact E0|].
    intros cs [Hcl|Hset]; [done|by destruct (Hno cs)].
  - set (p' := {| ap_UUID := ap_UUID p; ap_ReviewedControls := r;
                  ap_LocalDefinitions := o |}).
    destruct (localSelectionsOf p') as [|cs l] eqn:Hl; [done|].
    destruct (Hno cs). apply (ld_ok_localSelections _ p'); [exact E|].
    rewrite Hl. left.
Qed.

Lemma ApplyScope_empty_scope_witness :
  ∃ p',
    ApplyScope descending (scopeOf []) plan_rooted 0 = Some (p', 3) ∧
    Forall (λ cs, ac_IncludeAll cs = None ∧ ac_IncludeControls cs = None)
           (rootSelectionsOf p') ∧
    localSelectionsOf p' = [].
Proof.
  eexists. split; [by vm_compute|].
  eapply (ApplyScope_empty_scope descending (scopeOf []) plan_rooted 0 _ 3).
  - apply descending_ok.
  - reflexivity.
  - by vm_compute.
Defined.
